(** * SALib.sample.morris: a shallow embedding and its properties

    The development follows [src/SALib/sample/morris.py]:
    - Python values that the code inspects dynamically ([flatten]) are an
      inductive type of nested lists with string leaves;
    - the [dict] built by [compute_groups] is a [gmap string nat];
    - numpy arrays updated by index are lists with an explicit range check;
    - exceptions are the left summand of a sum type;
    - the objects that the code shares by reference (the sample arrays) live
      in a store indexed by locations. *)

From stdpp Require Import gmap strings list fin_maps.
From Stdlib Require Import ZArith Lia.
From stdpp Require Import pretty.

Set Warnings "-register-all".

(** ** Exceptions *)

(** The exceptions the module can raise.  Every configuration error of the
    module is a Python [ValueError]; [IndexError] and [KeyError] are what
    numpy indexing and [dict] subscripting raise; [AttributeError] is what a
    method call on [None] raises. *)
Inductive exn : Type :=
  | ValueError (msg : string)
  | IndexError
  | KeyError (key : string)
  | AttributeError.

Definition result (A : Type) : Type := exn + A.

Definition is_configuration_error (e : exn) : bool :=
  match e with
  | ValueError _ => true
  | _ => false
  end.

Definition raises_configuration_error {A : Type} (r : result A) : Prop :=
  ∃ msg, r = inl (ValueError msg).

Definition msg_fewer_than_samples : string :=
  "The number of optimal trajectories should be less than the number of samples.".
Definition msg_greater_than_10 : string :=
  "Running optimal trajectories greater than values of 10 will take a long time.".
Definition msg_two_or_more : string :=
  "The number of optimal trajectories must be set to 2 or more.".
Definition msg_group_names : string :=
  "The parameter names from the group file do not match those from the parameter file".

(** ** Python values seen by [flatten] *)

(** A value is a string (a [basestring], never descended into) or a list of
    values (an [Iterable] that is not a string). *)
Inductive pyval : Type :=
  | PStr (s : string)
  | PList (l : list pyval).

(** [flatten_el el] is what one iteration of the loop of [Morris.flatten]
    yields for the element [el]: the element itself when it is a string, and
    everything [flatten el] yields when it is a list.  The inner fixpoint is
    the [for el in l] loop of the recursive call. *)
Fixpoint flatten_el (el : pyval) : list string :=
  match el with
  | PList l =>
      (fix loop (l : list pyval) : list string :=
         match l with
         | [] => []
         | el' :: rest => flatten_el el' ++ loop rest
         end) l
  | PStr s => [s]
  end.

(** [Morris.flatten l]: the sequence of the values the generator yields. *)
Definition flatten (l : list pyval) : list string :=
  flat_map flatten_el l.

(** *** The specification side: depth-first traversal with an explicit stack *)

(** Number of constructors below a value; bounds the length of a traversal. *)
Fixpoint pyval_size (v : pyval) : nat :=
  match v with
  | PStr _ => 1
  | PList l =>
      S ((fix sum (l : list pyval) : nat :=
            match l with
            | [] => 0
            | v' :: rest => pyval_size v' + sum rest
            end) l)
  end.

Definition pyvals_size (l : list pyval) : nat :=
  foldr (λ v n, pyval_size v + n) 0 l.

(** The leaves in left-to-right depth-first order, following the words of the
    claim: keep a stack of the values still to visit, always visit the
    leftmost; a string is emitted whole, a list is replaced by its children
    in order. *)
Fixpoint dfs_leaves (fuel : nat) (stack : list pyval) : list string :=
  match fuel with
  | 0 => []
  | S fuel' =>
      match stack with
      | [] => []
      | PStr s :: stack' => s :: dfs_leaves fuel' stack'
      | PList children :: stack' => dfs_leaves fuel' (children ++ stack')
      end
  end.

Definition leaves_in_order (l : list pyval) : list string :=
  dfs_leaves (S (pyvals_size l)) l.

(** ** Matrices updated by index *)

(** The group matrix holds the floats [0.0] and [1.0]; they are integers
    here. *)
Abbreviation matrix := (list (list Z)) (only parsing).

(** [np.zeros((r, c))] *)
Definition np_zeros (r c : nat) : matrix := replicate r (replicate c 0%Z).

(** [output[i, j] = v]; numpy raises [IndexError] out of range. *)
Definition np_set (out : matrix) (i j : nat) (v : Z) : result matrix :=
  match out !! i with
  | None => inl IndexError
  | Some r =>
      if decide (j < length r) then inr (<[i := <[j := v]> r]> out)
      else inl IndexError
  end.

(** [output[i, j]] *)
Definition np_get (out : matrix) (i j : nat) : option Z :=
  out !! i ≫= (.!! j).

Definition has_shape (out : matrix) (r c : nat) : Prop :=
  length out = r ∧ Forall (λ row, length row = c) out.

(** ** [Morris.compute_groups] *)

(** [dict(pairs)]: later pairs overwrite earlier ones. *)
Definition dict (pairs : list (string * nat)) : gmap string nat :=
  foldl (λ d p, <[p.1 := p.2]> d) ∅ pairs.

(** [[(x, i) for (i, x) in enumerate(names)]], counting from [start]. *)
Fixpoint enumerate_swapped (start : nat) (names : list string)
  : list (string * nat) :=
  match names with
  | [] => []
  | x :: rest => (x, start) :: enumerate_swapped (S start) rest
  end.

(** [for param in group: column = indices[param]; output[column, row] = 1] *)
Fixpoint for_params (indices : gmap string nat) (row : nat)
    (group : list string) (output : matrix) : result matrix :=
  match group with
  | [] => inr output
  | param :: rest =>
      match indices !! param with
      | None => inl (KeyError param)
      | Some column =>
          match np_set output column row 1 with
          | inl e => inl e
          | inr output' => for_params indices row rest output'
          end
      end
  end.

(** [for row, group in enumerate(param_names_from_gf): ...] *)
Fixpoint for_groups (indices : gmap string nat) (row : nat)
    (groups : list (list string)) (output : matrix) : result matrix :=
  match groups with
  | [] => inr output
  | group :: rest =>
      match for_params indices row group output with
      | inl e => inl e
      | inr output' => for_groups indices (S row) rest output'
      end
  end.

(** The parsed group file, [gf['groups']]: one entry per row of the file, the
    group name and the list of the names of its members. *)
Abbreviation group_data := (list (string * list string)) (only parsing).

(** The body of [compute_groups] after the file has been read.  [num_vars]
    and [parameter_names] are the attributes of [self] it uses.  The two
    [print] calls before the [raise] write to the standard output only and
    are left out. *)
Definition compute_groups_data (num_vars : nat) (parameter_names : list string)
    (data : group_data) : result matrix :=
  let group_names := map fst data in
  let param_names_from_gf := map snd data in
  let param_names_to_check :=
    flatten (map (λ g, PList (map PStr g)) param_names_from_gf) in
  let actual_names := parameter_names in
  if negb (forallb (λ x, bool_decide (x ∈ actual_names)) param_names_to_check)
  then inl (ValueError msg_group_names)
  else
    let indices := dict (enumerate_swapped 0 actual_names) in
    let output := np_zeros num_vars (length group_names) in
    for_groups indices 0 param_names_from_gf output.

(** ** The optimal-trajectory preconditions of [Morris.__init__] *)

(** Lines 101-109: the three guards on [optimal_trajectories], in the order
    of the [if]/[elif] chain.  [None] skips them all. *)
Definition check_optimal_trajectories (optimal_trajectories : option Z)
    (samples : Z) : result unit :=
  match optimal_trajectories with
  | None => inr tt
  | Some m =>
      if (m >=? samples)%Z then inl (ValueError msg_fewer_than_samples)
      else if (m >? 10)%Z then inl (ValueError msg_greater_than_10)
      else if (m <=? 1)%Z then inl (ValueError msg_two_or_more)
      else inr tt
  end.

(** ** The store and the computations over it *)

(** References to numpy arrays. *)
Abbreviation loc := nat (only parsing).

(** Calls of the functions of the sibling modules, recorded in the order in
    which they are entered. *)
Inductive call : Type :=
  | CallMorrisOatSample (N : Z) (param_file : string) (num_levels grid_jump : Z)
  | CallMorrisGroupsSample (N : Z) (G : matrix) (num_levels grid_jump : Z)
  | CallFindOptimumTrajectories (sample : loc) (N : Z) (num_vars : nat) (k : Z).

(** ** What the module imports *)

(** The dictionary returned by [read_param_file]; a bound is a pair of
    floats, left abstract. *)
Record ParamFile (bound : Type) : Type := MkParamFile {
  pf_num_vars : nat;
  pf_bounds : list bound;
  pf_names : list string
}.

Arguments MkParamFile {bound} _ _ _.
Arguments pf_num_vars {bound} _.
Arguments pf_bounds {bound} _.
Arguments pf_names {bound} _.

(** The invariant of a parameter space: as many bounds and names as
    factors. *)
Definition pf_wf {bound : Type} (pf : ParamFile bound) : Prop :=
  length (pf_bounds pf) = pf_num_vars pf ∧
  length (pf_names pf) = pf_num_vars pf.

(** The functions of [..util], [morris_oat], [morris_groups] and
    [morris_optimal] that the module calls, and the types they work on. *)
Class Imports : Type := MkImports {
  (** contents of a sample array (a numpy array of floats) *)
  ndarray : Type;
  (** one bound of a factor *)
  bound : Type;
  (** state of the process-wide random generators *)
  rng : Type;
  (** [util.read_param_file], [util.read_group_file]: the parsers *)
  read_param_file : string → ParamFile bound;
  read_group_file : string → group_data;
  (** [util.scale_samples(params, bounds)] rescales the array it is given in
      place: the new contents of that array, and whether the call returned
      or raised *)
  scale_samples : ndarray → list bound → ndarray * result unit;
  (** the random draws of [morris_oat.sample] and [morris_groups.sample] once
      their arguments are accepted *)
  draw_oat : Z → ParamFile bound → Z → Z → rng → ndarray * rng;
  draw_groups : Z → matrix → Z → Z → rng → ndarray * rng;
  (** [morris_optimal.find_optimum_trajectories(sample, N, num_vars, k)] on
      the contents of [sample]: the selected trajectories, or an exception *)
  find_optimum : ndarray → Z → nat → Z → result ndarray
}.

Section Morris.

Context {imports : Imports}.

(** *** State *)

Record world : Type := MkWorld {
  heap : gmap loc ndarray;
  calls : list call;
  gen : rng
}.

(** A computation may change the world and may raise; what it did to the
    world before raising stays done. *)
Definition M (A : Type) : Type := world → result A * world.

Definition ret {A : Type} (x : A) : M A := λ w, (inr x, w).

Definition raise {A : Type} (e : exn) : M A := λ w, (inl e, w).

Definition bind {A B : Type} (c : M A) (k : A → M B) : M B :=
  λ w, match c w with
       | (inl e, w') => (inl e, w')
       | (inr x, w') => k x w'
       end.

Definition lift {A : Type} (r : result A) : M A := λ w, (r, w).

#[local] Instance M_ret : MRet M := @ret.
#[local] Instance M_bind : MBind M := λ A B k c, bind c k.

(** Entering a function of a sibling module. *)
Definition enter (c : call) : M unit :=
  λ w, (inr tt, MkWorld (heap w) (calls w ++ [c]) (gen w)).

(** A new array object. *)
Definition alloc (a : ndarray) : M loc :=
  λ w, let l := fresh (dom (heap w)) in
       (inr l, MkWorld (<[l := a]> (heap w)) (calls w) (gen w)).

(** Reading through a reference.  A reference held by a Python object is
    always allocated; the other branch only makes the function total. *)
Definition deref (l : loc) : M ndarray :=
  λ w, match heap w !! l with
       | Some a => (inr a, w)
       | None => (inl AttributeError, w)
       end.

(** A call that works in place on the array behind a reference. *)
Definition update (l : loc) (f : ndarray → ndarray * result unit) : M unit :=
  λ w, match heap w !! l with
       | Some a =>
           ((f a).2, MkWorld (<[l := (f a).1]> (heap w)) (calls w) (gen w))
       | None => (inl AttributeError, w)
       end.

(** A random draw. *)
Definition draw (d : rng → ndarray * rng) : M ndarray :=
  λ w, let '(a, g) := d (gen w) in (inr a, MkWorld (heap w) (calls w) g).

(** *** The sibling modules *)

(** Modelled from the spec: the message of the configuration error of the
    trajectory builder; the specification fixes the kind of the error, not
    its text. *)
Definition msg_grid : string :=
  "num_levels must be an even integer >= 2 and grid_jump a positive integer below it".

(** Modelled from the spec: the requirement of the trajectory builder on the
    grid (section 4.1), as the test the absent samplers run on their
    arguments. *)
Definition grid_ok (num_levels grid_jump : Z) : bool :=
  Z.even num_levels && (2 <=? num_levels)%Z &&
  (0 <? grid_jump)%Z && (grid_jump <? num_levels)%Z.

(** Modelled from the spec: [morris_oat.sample], which is not part of the
    sources at hand.  Section 4.1: [num_levels] must be an even integer at
    least 2 and [grid_jump] a positive integer below it, violations signal
    a configuration error; otherwise the trajectories are drawn, with no
    side effect beyond the random draws. *)
Definition morris_oat_sample (N : Z) (param_file : string)
    (num_levels grid_jump : Z) : M loc :=
  enter (CallMorrisOatSample N param_file num_levels grid_jump);;
  if grid_ok num_levels grid_jump then
    a ← draw (draw_oat N (read_param_file param_file) num_levels grid_jump);
    alloc a
  else raise (ValueError msg_grid).

(** Modelled from the spec: [morris_groups.sample], which is not part of
    the sources at hand.  Section 4.2: the same construction as 4.1 over
    the groups, hence the same requirement on the grid. *)
Definition morris_groups_sample (N : Z) (G : matrix)
    (num_levels grid_jump : Z) : M loc :=
  enter (CallMorrisGroupsSample N G num_levels grid_jump);;
  if grid_ok num_levels grid_jump then
    a ← draw (draw_groups N G num_levels grid_jump);
    alloc a
  else raise (ValueError msg_grid).

(** [morris_optimal.find_optimum_trajectories]: reads the sample it is
    given and returns a new array. *)
Definition find_optimum_trajectories (sample : loc) (N : Z) (num_vars : nat)
    (k : Z) : M loc :=
  enter (CallFindOptimumTrajectories sample N num_vars k);;
  a ← deref sample;
  b ← lift (find_optimum a N num_vars k);
  alloc b.

(** *** The class [Morris] *)

(** The attributes of an instance.  [output_sample] is [None] until a
    sample has been created. *)
Record Morris : Type := MkMorris {
  parameter_file : string;
  samples : Z;
  num_levels : Z;
  grid_jump : Z;
  num_vars : nat;
  bounds : list bound;
  parameter_names : list string;
  groups : option matrix;
  optimal_trajectories : option Z;
  output_sample : option loc
}.

(** [self.output_sample = l] *)
Definition set_output_sample (self : Morris) (l : loc) : Morris :=
  MkMorris (parameter_file self) (samples self) (num_levels self)
    (grid_jump self) (num_vars self) (bounds self) (parameter_names self)
    (groups self) (optimal_trajectories self) (Some l).

(** [Sample.get_input_sample_unscaled]: the reference itself. *)
Definition get_input_sample_unscaled (self : Morris) : M (option loc) :=
  ret (output_sample self).

(** [Sample.get_input_sample_scaled]: copy, scale the copy in place, return
    the copy.  On [None] the call of [copy] raises. *)
Definition get_input_sample_scaled (self : Morris) : M loc :=
  match output_sample self with
  | None => raise AttributeError
  | Some l =>
      a ← deref l;
      scaled_samples ← alloc a;
      update scaled_samples (λ params, scale_samples params (bounds self));;
      ret scaled_samples
  end.

(** [Morris.compute_groups] *)
Definition compute_groups (num_vars : nat) (parameter_names : list string)
    (group_file : string) : result matrix :=
  let gf := read_group_file group_file in
  compute_groups_data num_vars parameter_names gf.

(** [Morris.create_sample] *)
Definition create_sample (self : Morris) : M Morris :=
  match optimal_trajectories self with
  | None =>
      optimal_sample ← morris_oat_sample (samples self) (parameter_file self)
                         (num_levels self) (grid_jump self);
      ret (set_output_sample self optimal_sample)
  | Some k =>
      sample ← morris_oat_sample (samples self) (parameter_file self)
                 (num_levels self) (grid_jump self);
      optimal_sample ← find_optimum_trajectories sample (samples self)
                         (num_vars self) k;
      ret (set_output_sample self optimal_sample)
  end.

(** [Morris.create_sample_with_groups].  [__init__] calls it only when
    [self.groups] is a matrix; the sampler cannot work on [None]. *)
Definition create_sample_with_groups (self : Morris) : M Morris :=
  match groups self with
  | None => raise AttributeError
  | Some G =>
      sample ← morris_groups_sample (samples self) G
                 (num_levels self) (grid_jump self);
      let self := set_output_sample self sample in
      match optimal_trajectories self with
      | None => ret self
      | Some k =>
          optimal_sample ← find_optimum_trajectories sample (samples self)
                             (num_vars self) k;
          ret (set_output_sample self optimal_sample)
      end
  end.

(** [if group_file:] — [None] and the empty string are false. *)
Definition truthy (group_file : option string) : option string :=
  match group_file with
  | Some EmptyString => None
  | other => other
  end.

(** Lines 95-98: [self.groups]. *)
Definition init_groups (pf : ParamFile bound) (group_file : option string)
  : result (option matrix) :=
  match truthy group_file with
  | Some f =>
      match compute_groups (pf_num_vars pf) (pf_names pf) f with
      | inl e => inl e
      | inr G => inr (Some G)
      end
  | None => inr None
  end.

(** [Morris.__init__] *)
Definition Morris_init (parameter_file : string) (samples num_levels grid_jump : Z)
    (group_file : option string) (optimal_trajectories : option Z) : M Morris :=
  let pf := read_param_file parameter_file in
  groups ← lift (init_groups pf group_file);
  let self := MkMorris parameter_file samples num_levels grid_jump
                (pf_num_vars pf) (pf_bounds pf) (pf_names pf)
                groups optimal_trajectories None in
  lift (check_optimal_trajectories optimal_trajectories samples);;
  match groups with
  | None => create_sample self
  | Some _ => create_sample_with_groups self
  end.

(** The instance as it is when the guards on [optimal_trajectories] run. *)
Definition self_before_sampling (parameter_file : string)
    (samples num_levels grid_jump : Z) (groups : option (list (list Z)))
    (optimal_trajectories : option Z) : Morris :=
  let pf := read_param_file parameter_file in
  MkMorris parameter_file samples num_levels grid_jump
    (pf_num_vars pf) (pf_bounds pf) (pf_names pf)
    groups optimal_trajectories None.

(** The sampling step that ends [__init__]. *)
Definition sampling_step (self : Morris) : M Morris :=
  match groups self with
  | None => create_sample self
  | Some _ => create_sample_with_groups self
  end.

End Morris.


(** ** Vocabulary of the statements *)

(** The position that [indices] gives to a name: the last one at which it
    occurs in the list of names. *)
Fixpoint last_index (x : string) (names : list string) : option nat :=
  match names with
  | [] => None
  | y :: rest =>
      match last_index x rest with
      | Some k => Some (S k)
      | None => if decide (x = y) then Some 0 else None
      end
  end.

(** Some member of [group] is sent to row [i] by [indices]. *)
Definition hits (indices : gmap string nat) (i : nat) (group : list string)
  : bool :=
  existsb (λ param, bool_decide (indices !! param = Some i)) group.

(** Every name that the group file mentions is the name of a factor. *)
Definition names_known (names : list string) (data : group_data) : Prop :=
  ∀ gname g x, (gname, g) ∈ data → x ∈ g → x ∈ names.

(** The groups (rows of the group file) that have [name] among their
    members. *)
Definition groups_containing (name : string) (data : group_data) : group_data :=
  filter (λ g, name ∈ g.2) data.

(** Some member of the group of column [j] is sent to row [i], the columns
    being numbered from [row] on. *)
Definition group_hits (indices : gmap string nat) (row : nat)
    (groups : list (list string)) (i j : nat) : bool :=
  bool_decide (row ≤ j) &&
  from_option (hits indices i) false (groups !! (j - row)).

(** [M] has one row per name, one column per row of the group file, and a 1
    exactly where the factor of the row is a member of the group of the
    column. *)
Definition is_membership_matrix (names : list string) (data : group_data)
    (M : matrix) : Prop :=
  has_shape M (length names) (length data) ∧
  ∀ i j name gname g,
    names !! i = Some name → data !! j = Some (gname, g) →
    np_get M i j = Some (if bool_decide (name ∈ g) then 1%Z else 0%Z).

(** Sum of the entries of a row. *)
Definition row_sum (row : list Z) : Z := foldr Z.add 0%Z row.

(** All entries are 0 or 1. *)
Definition is_binary (M : matrix) : Prop :=
  Forall (Forall (λ v, v = 0%Z ∨ v = 1%Z)) M.

(** The grid requirement in the words of the specification. *)
Definition grid_valid (num_levels grid_jump : Z) : Prop :=
  (Z.even num_levels = true ∧ 2 ≤ num_levels)%Z ∧
  (0 < grid_jump ∧ grid_jump < num_levels)%Z.

(** The computation ends in an exception, which is a configuration error
    whenever [well_formed] holds of its input. *)
Definition raises_error {A : Type} (well_formed : Prop) (r : result A) : Prop :=
  ∃ e, r = inl e ∧ (well_formed → is_configuration_error e = true).

(** Some guard on the number of optimal trajectories is violated. *)
Definition violates_precondition (m samples : Z) : Prop :=
  (m >= samples ∨ m > 10 ∨ m <= 1)%Z.


(** ** A concrete instance of the imports *)

(** Three factors on the unit cube. *)
Definition demo_param_file : ParamFile (Z * Z) :=
  MkParamFile 3 [(0, 1); (0, 1); (0, 1)]%Z ["x1"; "x2"; "x3"].

(** A parameter file in which the first name is used again for the third
    factor. *)
Definition demo_duplicate_param_file : ParamFile (Z * Z) :=
  MkParamFile 3 [(0, 1); (0, 1); (0, 1)]%Z ["x1"; "x2"; "x1"].

(** Group files: [groups.txt] puts every factor of [demo_param_file] into one
    group; [pairs.txt] has one group for [x1] and one for [x2];
    [overlap.txt] lists [x1] twice and leaves [x3] out; [single.txt] has one
    group with [x1] alone. *)
Definition demo_group_file (name : string) : list (string * list string) :=
  if decide (name = "groups.txt") then [("g1", ["x1"; "x3"]); ("g2", ["x2"])]
  else if decide (name = "pairs.txt") then [("g1", ["x1"]); ("g2", ["x2"])]
  else if decide (name = "overlap.txt") then [("g1", ["x1"; "x2"]); ("g2", ["x1"])]
  else if decide (name = "single.txt") then [("g", ["x1"])]
  else [].

(** Arrays are lists of integers, the generator is a counter, scaling
    doubles and returns, the optimiser keeps the first [k] entries. *)
Definition demo_imports : Imports :=
  MkImports (list Z) (Z * Z) nat
    (λ name, if decide (name = "duplicate.txt") then demo_duplicate_param_file
             else demo_param_file)
    demo_group_file
    (λ params _, (map (Z.mul 2) params, inr tt))
    (λ N pf num_levels grid_jump g,
       ([N; Z.of_nat (pf_num_vars pf); num_levels; grid_jump; Z.of_nat g], S g))
    (λ N G num_levels grid_jump g,
       ([N; Z.of_nat (length G); num_levels; grid_jump; Z.of_nat g], S g))
    (λ a N num_vars k, inr (take (Z.to_nat k) a)).

(** A world with nothing allocated and no call made. *)
Definition demo_world : @world demo_imports := @MkWorld demo_imports ∅ [] 0.

(** The instance and the world after
    [Morris("params.txt", 5, 4, 2)] in [demo_world]. *)
Definition demo_self : @Morris demo_imports :=
  @MkMorris demo_imports "params.txt" 5 4 2 3 [(0, 1); (0, 1); (0, 1)]%Z
    ["x1"; "x2"; "x3"] None None (Some 0).

Definition demo_built_world : @world demo_imports :=
  @MkWorld demo_imports {[0 := [5; 3; 4; 2; 0]%Z]}
    [CallMorrisOatSample 5 "params.txt" 4 2] 1.


(** ** The class [Sample] *)

Section SampleClass.

Context {imports : Imports}.

#[local] Existing Instance M_ret.
#[local] Existing Instance M_bind.

(** The attributes that [Sample.__init__] sets. *)
Record Sample : Type := MkSample {
  sample_parameter_file : string;
  sample_num_vars : nat;
  sample_bounds : list bound;
  sample_parameter_names : list string;
  sample_samples : Z;
  sample_output_sample : option loc
}.

(** [Sample.__init__] *)
Definition Sample_init (parameter_file : string) (samples : Z) : M Sample :=
  let pf := read_param_file parameter_file in
  ret (MkSample parameter_file (pf_num_vars pf) (pf_bounds pf) (pf_names pf)
         samples None).

(** A [Morris] instance seen through the attributes of its base class.
    [Morris.__init__] does not call [Sample.__init__]; it sets the same
    attributes itself. *)
Definition as_Sample (self : Morris) : Sample :=
  MkSample (parameter_file self) (num_vars self) (bounds self)
    (parameter_names self) (samples self) (output_sample self).

(** [Sample.get_input_sample_unscaled] on the attributes of the base
    class. *)
Definition Sample_get_input_sample_unscaled (self : Sample) : M (option loc) :=
  ret (sample_output_sample self).

(** [Sample.get_input_sample_scaled] on the attributes of the base class. *)
Definition Sample_get_input_sample_scaled (self : Sample) : M loc :=
  match sample_output_sample self with
  | None => raise AttributeError
  | Some l =>
      a ← deref l;
      scaled_samples ← alloc a;
      update scaled_samples (λ params, scale_samples params (sample_bounds self));;
      ret scaled_samples
  end.

(** What [np.savetxt] is asked to write: the file, the contents of the
    array, the delimiter and the format of a number. *)
Record savetxt : Type := MkSavetxt {
  savetxt_fname : string;
  savetxt_X : ndarray;
  savetxt_delimiter : string;
  savetxt_fmt : string
}.

(** [Sample.save_data(output, delimiter=' ', precision=8)].  An argument left
    out is [None].  The call of [np.savetxt] ends the method; the result is
    what that call is given.  [str(precision)] is the decimal notation of an
    integer. *)
Definition save_data (self : Sample) (output : string)
    (delimiter : option string) (precision : option Z) : M savetxt :=
  let delimiter := default " " delimiter in
  let precision := default 8%Z precision in
  data_to_save ← Sample_get_input_sample_scaled self;
  X ← deref data_to_save;
  ret (MkSavetxt output X delimiter ("%." +:+ pretty precision +:+ "e")).

End SampleClass.

(** ** Vocabulary of the further statements *)

(** The position that [indices] gives to [param] is not a row of a matrix
    with [r] rows. *)
Definition out_of_range (indices : gmap string nat) (r : nat) (param : string)
  : bool :=
  match indices !! param with
  | Some i => bool_decide (r ≤ i)
  | None => false
  end.

(** The names that the group file mentions, row after row. *)
Definition referenced (data : group_data) : list string :=
  concat (map snd data).

(** Two group files with the same number of rows and, row by row, the same
    set of members. *)
Definition same_members (data data' : group_data) : Prop :=
  Forall2 (λ g g', ∀ x, x ∈ g.2 ↔ x ∈ g'.2) data data'.

(** The store of [w'] has every array of [w], unchanged. *)
Definition keeps_arrays {imports : Imports} (w w' : world) : Prop :=
  ∀ k b, heap w !! k = Some b → heap w' !! k = Some b.

(** The call of a sampler that the sampling step makes for [self]. *)
Definition sampler_call {imports : Imports} (self : Morris) : call :=
  match groups self with
  | None =>
      CallMorrisOatSample (samples self) (parameter_file self)
        (num_levels self) (grid_jump self)
  | Some G =>
      CallMorrisGroupsSample (samples self) G (num_levels self) (grid_jump self)
  end.


(** * Properties *)

(** ** [flatten] *)

Module Flatten.

Lemma flatten_el_list (l : list pyval) : flatten_el (PList l) = flatten l.
Proof.
  unfold flatten. induction l as [|el rest IH]; [done|].
  simpl in *. by rewrite IH.
Qed.

Lemma flatten_cons_str (s : string) (l : list pyval) :
  flatten (PStr s :: l) = s :: flatten l.
Proof. done. Qed.

Lemma flatten_app (l1 l2 : list pyval) :
  flatten (l1 ++ l2) = flatten l1 ++ flatten l2.
Proof. unfold flatten. apply flat_map_app. Qed.

Lemma flatten_cons_list (children l : list pyval) :
  flatten (PList children :: l) = flatten (children ++ l).
Proof.
  rewrite flatten_app.
  change (flatten (PList children :: l))
    with (flatten_el (PList children) ++ flatten l).
  by rewrite flatten_el_list.
Qed.

Lemma pyval_size_list (l : list pyval) :
  pyval_size (PList l) = S (pyvals_size l).
Proof.
  reflexivity.
Qed.

Lemma pyvals_size_app (l1 l2 : list pyval) :
  pyvals_size (l1 ++ l2) = pyvals_size l1 + pyvals_size l2.
Proof.
  unfold pyvals_size. induction l1 as [|v rest IH]; simpl; [done|].
  rewrite IH. lia.
Qed.

(** With enough fuel the traversal with a stack yields what [flatten]
    yields. *)
Lemma dfs_leaves_flatten (fuel : nat) (stack : list pyval) :
  pyvals_size stack < fuel → dfs_leaves fuel stack = flatten stack.
Proof.
  revert stack. induction fuel as [|fuel IH]; intros stack Hfuel; [lia|].
  destruct stack as [|[s|children] stack']; cbn [dfs_leaves].
  - done.
  - rewrite flatten_cons_str. f_equal. apply IH.
    unfold pyvals_size in *. simpl in Hfuel. lia.
  - rewrite flatten_cons_list. apply IH.
    rewrite pyvals_size_app.
    change (pyvals_size (PList children :: stack'))
      with (pyval_size (PList children) + pyvals_size stack') in Hfuel.
    rewrite pyval_size_list in Hfuel. lia.
Qed.

Lemma flatten_strings (names : list string) :
  flatten (map PStr names) = names.
Proof.
  induction names as [|s rest IH]; [done|].
  cbn [map]. rewrite flatten_cons_str. by rewrite IH.
Qed.

(** The names that [compute_groups] checks are the members of the groups,
    group after group. *)
Lemma flatten_groups (gs : list (list string)) :
  flatten (map (λ g, PList (map PStr g)) gs) = concat gs.
Proof.
  induction gs as [|g rest IH]; [done|].
  cbn [map concat]. rewrite flatten_cons_list, flatten_app, flatten_strings.
  by rewrite IH.
Qed.

(** C9. For every finite nesting of lists whose leaves are strings,
    [flatten] yields exactly the leaf strings in left-to-right depth-first
    order: its output is the output of the depth-first traversal that visits
    the leftmost pending value first.  A string is one leaf, yielded whole:
    a list of strings is flattened to itself, whatever the length of the
    strings. *)
Theorem flatten_depth_first :
  (∀ l : list pyval, flatten l = leaves_in_order l) ∧
  (∀ names : list string, flatten (map PStr names) = names) ∧
  (∀ (s : string) (l : list pyval), flatten (PStr s :: l) = s :: flatten l) ∧
  (∀ children l : list pyval,
     flatten (PList children :: l) = flatten children ++ flatten l).
Proof.
  split_and!.
  - intros l. unfold leaves_in_order. symmetry. apply dfs_leaves_flatten. lia.
  - apply flatten_strings.
  - apply flatten_cons_str.
  - intros children l. by rewrite flatten_cons_list, flatten_app.
Qed.

End Flatten.

(** ** [compute_groups] *)

Module Groups.

(** *** The dictionary of positions *)

Lemma dict_lookup (x : string) (names : list string) :
  ∀ (start : nat) (d : gmap string nat),
    foldl (λ d p, <[p.1 := p.2]> d) d (enumerate_swapped start names) !! x =
    match last_index x names with
    | Some k => Some (start + k)
    | None => d !! x
    end.
Proof.
  induction names as [|y rest IH]; intros start d; [done|].
  cbn [enumerate_swapped foldl last_index]. rewrite IH. simpl.
  destruct (last_index x rest) as [k|].
  - f_equal. lia.
  - destruct (decide (x = y)) as [->|Hne].
    + rewrite lookup_insert_eq. f_equal. lia.
    + by rewrite lookup_insert_ne.
Qed.

Lemma indices_lookup (x : string) (names : list string) :
  dict (enumerate_swapped 0 names) !! x = last_index x names.
Proof.
  unfold dict. rewrite dict_lookup.
  destruct (last_index x names); [done | apply lookup_empty].
Qed.

Lemma last_index_None (x : string) (names : list string) :
  last_index x names = None ↔ x ∉ names.
Proof.
  induction names as [|y rest IH]; simpl.
  - split; [intros _; apply not_elem_of_nil | done].
  - rewrite not_elem_of_cons. destruct (last_index x rest) as [k|].
    + split; [done|]. intros [_ Hrest]. by apply IH in Hrest.
    + destruct (decide (x = y)); split; try done.
      * by intros [? _].
      * intros _. split; [done|]. by apply IH.
Qed.

Lemma last_index_Some (x : string) (names : list string) (i : nat) :
  last_index x names = Some i ↔
  names !! i = Some x ∧ ∀ k, i < k → names !! k ≠ Some x.
Proof.
  revert i. induction names as [|y rest IH]; intros i; simpl.
  - split; [done | by intros [? _]].
  - destruct (last_index x rest) as [k|] eqn:Hlast.
    + split.
      * intros [= <-]. destruct (IH k) as [[Hk Hafter] _]; [done|].
        split; [done|]. intros [|k'] Hlt; [lia|]. simpl. apply Hafter. lia.
      * intros [Hi Hafter]. destruct (IH k) as [[Hk _] _]; [done|].
        destruct i as [|i].
        -- exfalso. apply (Hafter (S k)); [lia | done].
        -- assert (Some k = Some i) as [= ->]; [|done].
           apply IH. split; [done|].
           intros k' Hlt. apply (Hafter (S k')). lia.
    + apply last_index_None in Hlast.
      destruct (decide (x = y)) as [->|Hne]; split.
      * intros [= <-]. split; [done|]. intros [|k'] Hlt Hk; [lia|].
        simpl in Hk. apply Hlast. by eapply list_elem_of_lookup_2.
      * intros [Hi _]. destruct i as [|i]; [done|].
        simpl in Hi. exfalso. apply Hlast. by eapply list_elem_of_lookup_2.
      * done.
      * intros [Hi _]. destruct i as [|i]; simpl in Hi; [congruence|].
        exfalso. apply Hlast. by eapply list_elem_of_lookup_2.
Qed.

Lemma last_index_lt (x : string) (names : list string) (i : nat) :
  last_index x names = Some i → i < length names.
Proof.
  intros [Hi _]%last_index_Some. by eapply lookup_lt_Some.
Qed.

Lemma last_index_NoDup (x : string) (names : list string) (i : nat) :
  NoDup names → names !! i = Some x → last_index x names = Some i.
Proof.
  intros Hnodup Hi. apply last_index_Some. split; [done|].
  intros k Hlt Hk. pose proof (NoDup_lookup _ _ _ _ Hnodup Hi Hk). lia.
Qed.

(** *** Reading and writing entries *)

Lemma has_shape_zeros (r c : nat) : has_shape (np_zeros r c) r c.
Proof.
  split; [apply length_replicate|].
  apply Forall_replicate, length_replicate.
Qed.

Lemma np_get_zeros (r c i j : nat) :
  i < r → j < c → np_get (np_zeros r c) i j = Some 0%Z.
Proof.
  intros Hi Hj. unfold np_get, np_zeros.
  rewrite lookup_replicate_2 by done. simpl. by apply lookup_replicate_2.
Qed.

Lemma has_shape_lookup (out : matrix) (r c i : nat) :
  has_shape out r c → i < r → ∃ row, out !! i = Some row ∧ length row = c.
Proof.
  intros [Hlen Hrows] Hi.
  destruct (lookup_lt_is_Some_2 out i) as [row Hrow]; [lia|].
  exists row. split; [done|].
  by eapply (proj1 (Forall_lookup _ _) Hrows).
Qed.

Lemma np_get_Some (out : matrix) (r c i j : nat) :
  has_shape out r c → i < r → j < c → is_Some (np_get out i j).
Proof.
  intros Hshape Hi Hj.
  destruct (has_shape_lookup out r c i) as (row & Hrow & Hlen); [done..|].
  unfold np_get. rewrite Hrow. simpl. apply lookup_lt_is_Some_2. lia.
Qed.

Lemma np_set_spec (out : matrix) (r c i j : nat) (v : Z) :
  has_shape out r c → i < r → j < c →
  ∃ out', np_set out i j v = inr out' ∧ has_shape out' r c ∧
    ∀ i' j', np_get out' i' j' =
      (λ v0, if bool_decide (i' = i ∧ j' = j) then v else v0) <$> np_get out i' j'.
Proof.
  intros Hshape Hi Hj.
  destruct (has_shape_lookup out r c i) as (row & Hrow & Hlen); [done..|].
  destruct Hshape as [Hr Hrows].
  unfold np_set. rewrite Hrow.
  destruct (decide (j < length row)) as [_|]; [|lia].
  eexists. split; [done|]. split.
  - split; [by rewrite length_insert|].
    apply Forall_insert; [done|]. by rewrite length_insert.
  - intros i' j'. unfold np_get.
    destruct (decide (i' = i)) as [->|Hne].
    + rewrite list_lookup_insert_eq by lia. rewrite Hrow. simpl.
      destruct (decide (j' = j)) as [->|Hne'].
      * rewrite list_lookup_insert_eq by lia.
        destruct (lookup_lt_is_Some_2 row j) as [v0 ->]; [lia|]. simpl.
        by rewrite bool_decide_eq_true_2.
      * rewrite list_lookup_insert_ne by done.
        destruct (row !! j') as [v0|]; simpl; [|done].
        rewrite bool_decide_eq_false_2; [done | by intros [? ?]].
    + rewrite list_lookup_insert_ne by done.
      destruct (out !! i' ≫= (.!! j')) as [v0|]; simpl; [|done].
      rewrite bool_decide_eq_false_2; [done | by intros [? ?]].
Qed.

(** *** The two loops *)

Lemma for_params_spec (indices : gmap string nat) (r c row : nat)
    (group : list string) :
  row < c →
  (∀ p, p ∈ group → ∃ i, indices !! p = Some i ∧ i < r) →
  ∀ output, has_shape output r c →
    ∃ out', for_params indices row group output = inr out' ∧
      has_shape out' r c ∧
      ∀ i j, np_get out' i j =
        (λ v0, if bool_decide (j = row) && hits indices i group
               then 1%Z else v0) <$> np_get output i j.
Proof.
  intros Hrow. induction group as [|p rest IH]; intros Hknown output Hshape.
  - exists output. split; [done|]. split; [done|]. intros i j.
    cbn [hits existsb]. rewrite andb_false_r. by destruct (np_get output i j).
  - destruct (Hknown p) as (col & Hcol & Hlt); [left|].
    destruct (np_set_spec output r c col row 1 Hshape Hlt Hrow)
      as (out1 & Hset & Hshape1 & Hget1).
    destruct (IH (λ q Hq, Hknown q (list_elem_of_further _ _ _ Hq))
                out1 Hshape1) as (out' & Hloop & Hshape' & Hget').
    exists out'. cbn [for_params]. rewrite Hcol, Hset.
    split; [done|]. split; [done|]. intros i j.
    rewrite Hget', Hget1. destruct (np_get output i j) as [v0|]; [|done].
    simpl. f_equal. unfold hits. cbn [existsb]. rewrite Hcol.
    destruct (decide (j = row)) as [->|Hj].
    + rewrite (bool_decide_eq_true_2 (row = row)) by done. simpl.
      destruct (existsb _ rest); [by rewrite orb_true_r|].
      rewrite orb_false_r.
      destruct (decide (i = col)) as [->|Hi].
      * by rewrite !bool_decide_eq_true_2.
      * rewrite !bool_decide_eq_false_2; [done | congruence | by intros [? ?]].
    + rewrite (bool_decide_eq_false_2 (j = row)) by done. simpl.
      rewrite bool_decide_eq_false_2; [done | by intros [? ?]].
Qed.

Lemma for_groups_spec (indices : gmap string nat) (r c : nat)
    (groups : list (list string)) :
  (∀ g p, g ∈ groups → p ∈ g → ∃ i, indices !! p = Some i ∧ i < r) →
  ∀ row output, row + length groups ≤ c → has_shape output r c →
    ∃ out', for_groups indices row groups output = inr out' ∧
      has_shape out' r c ∧
      ∀ i j, np_get out' i j =
        (λ v0, if group_hits indices row groups i j then 1%Z else v0)
          <$> np_get output i j.
Proof.
  induction groups as [|g rest IH]; intros Hknown row output Hrow Hshape.
  - exists output. split; [done|]. split; [done|]. intros i j.
    unfold group_hits. rewrite lookup_nil. simpl. rewrite andb_false_r.
    by destruct (np_get output i j).
  - simpl in Hrow.
    destruct (for_params_spec indices r c row g) with (output := output)
      as (out1 & Hparams & Hshape1 & Hget1); [lia | | done |].
    { intros p Hp. apply (Hknown g p); [left | done]. }
    destruct (IH (λ g' p Hg', Hknown g' p (list_elem_of_further _ _ _ Hg'))
                (S row) out1) as (out' & Hloop & Hshape' & Hget');
      [lia | done |].
    exists out'. cbn [for_groups]. rewrite Hparams.
    split; [done|]. split; [done|]. intros i j.
    rewrite Hget', Hget1. destruct (np_get output i j) as [v0|]; [|done].
    simpl. f_equal. unfold group_hits.
    destruct (decide (j = row)) as [->|Hj].
    + rewrite (bool_decide_eq_false_2 (S row ≤ row)) by lia.
      rewrite !bool_decide_eq_true_2 by done.
      replace (row - row) with 0 by lia. done.
    + rewrite (bool_decide_eq_false_2 (j = row)) by done. simpl.
      destruct (decide (row ≤ j)) as [Hle|Hgt].
      * rewrite !bool_decide_eq_true_2 by lia.
        replace (j - row) with (S (j - S row)) by lia. simpl.
        by destruct (from_option _ _ _).
      * by rewrite !bool_decide_eq_false_2 by lia.
Qed.

(** *** The check of the names *)

Lemma names_check (names l : list string) :
  forallb (λ x, bool_decide (x ∈ names)) l = true ↔ ∀ x, x ∈ l → x ∈ names.
Proof.
  induction l as [|y rest IH]; simpl.
  - split; [|done]. intros _ x Hx. by apply not_elem_of_nil in Hx.
  - rewrite andb_true_iff, IH, bool_decide_eq_true. split.
    + intros [Hy Hrest] x [->|Hx]%elem_of_cons; auto.
    + intros Hall. split; [apply Hall; left|].
      intros x Hx. apply Hall. by right.
Qed.

Lemma elem_of_concat (x : string) (ls : list (list string)) :
  x ∈ concat ls ↔ ∃ l, x ∈ l ∧ l ∈ ls.
Proof.
  induction ls as [|l rest IH]; simpl.
  - split; [by intros ?%not_elem_of_nil|].
    by intros (l & _ & ?%not_elem_of_nil).
  - rewrite elem_of_app, IH. split.
    + intros [Hx|(l' & Hx & Hl')]; [exists l | exists l'];
        (split; [done|]); [left | by right].
    + intros (l' & Hx & [->|Hl']%elem_of_cons); [by left|]. right. eauto.
Qed.

Lemma names_known_concat (names : list string) (data : list (string * list string)) :
  names_known names data ↔ ∀ x, x ∈ concat (map snd data) → x ∈ names.
Proof.
  unfold names_known. split.
  - intros Hknown x (g & Hx & Hg)%elem_of_concat.
    apply list_elem_of_fmap in Hg as ([gname g'] & -> & Hin). eauto.
  - intros Hall gname g x Hg Hx. apply Hall, elem_of_concat.
    exists g. split; [done|]. apply list_elem_of_fmap. by exists (gname, g).
Qed.

Lemma for_params_not_configuration_error (indices : gmap string nat)
    (row : nat) (group : list string) (output : list (list Z)) (e : exn) :
  for_params indices row group output = inl e →
  is_configuration_error e = false.
Proof.
  revert output. induction group as [|p rest IH]; intros output; simpl; [done|].
  destruct (indices !! p) as [col|]; [|by intros [= <-]].
  unfold np_set. destruct (output !! col) as [r|]; [|by intros [= <-]].
  destruct (decide _); [apply IH | by intros [= <-]].
Qed.

Lemma for_groups_not_configuration_error (indices : gmap string nat)
    (groups : list (list string)) (row : nat) (output : list (list Z)) (e : exn) :
  for_groups indices row groups output = inl e →
  is_configuration_error e = false.
Proof.
  revert row output.
  induction groups as [|g rest IH]; intros row output; simpl; [done|].
  destruct (for_params indices row g output) as [e'|out1] eqn:Hparams.
  - intros [= <-]. by eapply for_params_not_configuration_error.
  - apply IH.
Qed.

(** *** The entries of the result *)

Lemma hits_indices (names group : list string) (i : nat) :
  hits (dict (enumerate_swapped 0 names)) i group = true ↔
  ∃ p, p ∈ group ∧ last_index p names = Some i.
Proof.
  unfold hits. induction group as [|q rest IH]; simpl.
  - split; [done|]. intros (p & Hp & _). by apply not_elem_of_nil in Hp.
  - rewrite orb_true_iff, IH, bool_decide_eq_true, indices_lookup. split.
    + intros [Hq|(p & Hp & Hlast)]; [exists q | exists p];
        (split; [|done]); [left | by right].
    + intros (p & [->|Hp]%elem_of_cons & Hlast); [by left|]. right. eauto.
Qed.

Lemma compute_groups_data_entries (n : nat) (names : list string)
    (data : list (string * list string)) :
  names_known names data → length names = n →
  ∃ M, compute_groups_data n names data = inr M ∧
    has_shape M n (length data) ∧
    ∀ i j name gname g,
      names !! i = Some name → data !! j = Some (gname, g) →
      np_get M i j =
        Some (if bool_decide (name ∈ g ∧ last_index name names = Some i)
              then 1%Z else 0%Z).
Proof.
  intros Hknown Hlen. unfold compute_groups_data.
  rewrite Flatten.flatten_groups.
  rewrite (proj2 (names_check names _)) by by apply names_known_concat.
  cbn [negb].
  destruct (for_groups_spec (dict (enumerate_swapped 0 names)) n
              (length (map fst data)) (map snd data)) with
    (row := 0) (output := np_zeros n (length (map fst data)))
    as (M & Hrun & Hshape & Hget).
  { intros g p ([gname g'] & -> & Hg)%list_elem_of_fmap Hp.
    rewrite indices_lookup.
    destruct (last_index p names) as [i|] eqn:Hlast.
    - exists i. split; [done|]. apply last_index_lt in Hlast. lia.
    - apply last_index_None in Hlast. destruct Hlast. eauto. }
  { rewrite !length_map. lia. }
  { apply has_shape_zeros. }
  rewrite length_map in Hshape.
  exists M. split; [done|]. split; [done|].
  intros i j name gname g Hi Hj.
  rewrite Hget, np_get_zeros; cycle 1.
  { rewrite <- Hlen. by eapply lookup_lt_Some. }
  { rewrite length_map. by eapply lookup_lt_Some. }
  simpl. f_equal. unfold group_hits.
  rewrite bool_decide_eq_true_2 by lia.
  replace (j - 0) with j by lia.
  rewrite list_lookup_fmap, Hj. simpl.
  destruct (hits _ i g) eqn:Hhits.
  - apply hits_indices in Hhits as (p & Hp & Hlast).
    pose proof (proj1 (last_index_Some _ _ _) Hlast) as [Hnth _].
    assert (p = name) as -> by congruence.
    by rewrite bool_decide_eq_true_2.
  - rewrite bool_decide_eq_false_2; [done|]. intros [Hin Hlast].
    assert (hits (dict (enumerate_swapped 0 names)) i g = true) as Habs
      by (apply hits_indices; eauto).
    congruence.
Qed.

Lemma names_known_check (names : list string) (data : list (string * list string)) :
  forallb (λ x, bool_decide (x ∈ names)) (concat (map snd data)) = true →
  names_known names data.
Proof. intros Hcheck. by apply names_known_concat, names_check. Qed.

Lemma names_check_false (names l : list string) :
  forallb (λ x, bool_decide (x ∈ names)) l = false → ∃ x, x ∈ l ∧ x ∉ names.
Proof.
  induction l as [|y rest IH]; simpl; [done|].
  intros [Hy|Hrest]%andb_false_iff.
  - exists y. split; [left | by apply bool_decide_eq_false in Hy].
  - destruct (IH Hrest) as (x & Hx & Hnot). exists x. split; [by right | done].
Qed.

(** *** Rows *)

Lemma row_sum_indicator {A : Type} (P : A → Prop) `{∀ x, Decision (P x)}
    (l : list A) :
  row_sum (map (λ x, if bool_decide (P x) then 1%Z else 0%Z) l) =
  Z.of_nat (length (filter P l)).
Proof.
  unfold row_sum. induction l as [|x rest IH]; [done|].
  cbn [map foldr]. rewrite IH, filter_cons.
  destruct (decide (P x)) as [Hx|Hx].
  - rewrite bool_decide_eq_true_2 by done. simpl. lia.
  - rewrite bool_decide_eq_false_2 by done. lia.
Qed.

Lemma membership_row (names : list string) (data : list (string * list string))
    (M : list (list Z)) (i : nat) (name : string) (row : list Z) :
  is_membership_matrix names data M →
  names !! i = Some name → M !! i = Some row →
  row = map (λ g, if bool_decide (name ∈ g.2) then 1%Z else 0%Z) data.
Proof.
  intros [[Hrows Hcols] Hentries] Hname Hrow.
  assert (length row = length data) as Hlen
    by by eapply (proj1 (Forall_lookup _ _) Hcols).
  apply list_eq. intros j. rewrite list_lookup_fmap.
  destruct (data !! j) as [[gname g]|] eqn:Hj; simpl.
  - specialize (Hentries i j name gname g Hname Hj).
    unfold np_get in Hentries. by rewrite Hrow in Hentries.
  - apply lookup_ge_None. apply lookup_ge_None in Hj. lia.
Qed.

Lemma membership_row_sum (names : list string) (data : list (string * list string))
    (M : list (list Z)) (i : nat) (name : string) (row : list Z) :
  is_membership_matrix names data M →
  names !! i = Some name → M !! i = Some row →
  row_sum row = Z.of_nat (length (groups_containing name data)).
Proof.
  intros HM Hname Hrow. rewrite (membership_row _ _ _ _ _ _ HM Hname Hrow).
  apply (row_sum_indicator (λ g, name ∈ g.2)).
Qed.

Lemma entries_binary (M : list (list Z)) (r c : nat) :
  has_shape M r c →
  (∀ i j, i < r → j < c →
     ∃ b : bool, np_get M i j = Some (if b then 1%Z else 0%Z)) →
  is_binary M.
Proof.
  intros [Hrows Hcols] Hentries. apply Forall_lookup. intros i row Hrow.
  apply Forall_lookup. intros j v Hv.
  assert (length row = c) as Hlen by by eapply (proj1 (Forall_lookup _ _) Hcols).
  destruct (Hentries i j) as [b Hb].
  - rewrite <- Hrows. by eapply lookup_lt_Some.
  - rewrite <- Hlen. by eapply lookup_lt_Some.
  - unfold np_get in Hb. rewrite Hrow in Hb. simpl in Hb.
    rewrite Hv in Hb. injection Hb as ->. destruct b; auto.
Qed.

(** What [compute_groups_data] returns whenever the names are known: never
    an exception, always a binary matrix of the right shape, and the
    membership matrix when no name is used for two factors. *)
Lemma compute_groups_data_total (n : nat) (names : list string)
    (data : list (string * list string)) :
  names_known names data → length names = n →
  ∃ M, compute_groups_data n names data = inr M ∧
    has_shape M n (length data) ∧ is_binary M ∧
    (∀ i j name gname g,
       names !! i = Some name → data !! j = Some (gname, g) →
       np_get M i j =
         Some (if bool_decide (name ∈ g ∧ last_index name names = Some i)
               then 1%Z else 0%Z)) ∧
    (NoDup names → is_membership_matrix names data M).
Proof.
  intros Hknown Hlen.
  destruct (compute_groups_data_entries n names data Hknown Hlen)
    as (M & Hrun & Hshape & Hentries).
  exists M. split; [done|]. split; [done|]. split; [|split; [done|]].
  - apply (entries_binary M n (length data) Hshape). intros i j Hi Hj.
    destruct (lookup_lt_is_Some_2 names i) as [name Hname]; [lia|].
    destruct (lookup_lt_is_Some_2 data j) as [[gname g] Hg]; [lia|].
    eexists. by apply (Hentries i j name gname g).
  - intros Hnodup. split; [by rewrite Hlen|].
    intros i j name gname g Hname Hg.
    rewrite (Hentries i j name gname g Hname Hg). f_equal.
    pose proof (last_index_NoDup name names i Hnodup Hname) as Hlast.
    destruct (decide (name ∈ g)) as [Hin|Hin].
    + by rewrite !bool_decide_eq_true_2.
    + rewrite !bool_decide_eq_false_2; [done..|]. by intros [? _].
Qed.

(** *** The group matrix *)

(** C3. For every parsed group file whose member names all occur in the
    parameter names (of which there are [num_vars]), [compute_groups]
    returns a matrix of shape (num_vars, number of rows of the group file).
    Entry (i, j) is 1 exactly when the name at position i is a member of the
    j-th group and i is the last position at which that name occurs in the
    parameter names, and 0 otherwise.  When the parameter names are pairwise
    distinct this is the membership matrix: entry (i, j) is 1 exactly when
    factor i is a member of group j. *)
Theorem compute_groups_matrix {imports : Imports} (num_vars : nat)
    (names : list string) (group_file : string) :
  names_known names (read_group_file group_file) →
  length names = num_vars →
  ∃ M, compute_groups num_vars names group_file = inr M ∧
    has_shape M num_vars (length (read_group_file group_file)) ∧
    (∀ i j name gname g,
       names !! i = Some name →
       read_group_file group_file !! j = Some (gname, g) →
       np_get M i j =
         Some (if bool_decide (name ∈ g ∧ last_index name names = Some i)
               then 1%Z else 0%Z)) ∧
    (NoDup names → is_membership_matrix names (read_group_file group_file) M).
Proof.
  intros Hknown Hlen. unfold compute_groups.
  destruct (compute_groups_data_total num_vars names _ Hknown Hlen)
    as (M & Hrun & Hshape & _ & Hentries & Hdistinct).
  by exists M.
Qed.

Lemma compute_groups_matrix_witness :
  names_known ["x1"; "x2"; "x3"] (demo_group_file "groups.txt") ∧
  length ["x1"; "x2"; "x3"] = 3 ∧
  ∃ M, @compute_groups demo_imports 3 ["x1"; "x2"; "x3"] "groups.txt" = inr M ∧
       is_membership_matrix ["x1"; "x2"; "x3"] (demo_group_file "groups.txt") M.
Proof.
  assert (names_known ["x1"; "x2"; "x3"] (demo_group_file "groups.txt"))
    as Hknown by (apply names_known_check; vm_compute; reflexivity).
  split; [exact Hknown|]. split; [reflexivity|].
  destruct (@compute_groups_matrix demo_imports 3 ["x1"; "x2"; "x3"]
              "groups.txt" Hknown eq_refl) as (M & Hrun & _ & _ & Hdistinct).
  exists M. split; [exact Hrun|]. apply Hdistinct.
  apply (bool_decide_unpack _). vm_compute. exact I.
Defined.

(** With a name used for two factors the matrix marks only the last of
    them: the first factor is a member of the first group and its entry
    is 0. *)
Lemma compute_groups_duplicate_names :
  names_known ["x1"; "x2"; "x1"] (demo_group_file "pairs.txt") ∧
  ∃ M, @compute_groups demo_imports 3 ["x1"; "x2"; "x1"] "pairs.txt" = inr M ∧
       ¬ is_membership_matrix ["x1"; "x2"; "x1"] (demo_group_file "pairs.txt") M.
Proof.
  split; [apply names_known_check; vm_compute; reflexivity|].
  exists [[0; 0]; [0; 1]; [1; 0]]%Z. split; [vm_compute; reflexivity|].
  intros [_ Hentries].
  specialize (Hentries 0 0 "x1" "g1" ["x1"] eq_refl eq_refl).
  vm_compute in Hentries. discriminate.
Qed.

(** C4. [compute_groups] raises a configuration error if and only if some
    factor name referenced by the group file does not occur among the
    parameter names. *)
Theorem compute_groups_error_iff {imports : Imports} (num_vars : nat)
    (names : list string) (group_file : string) :
  raises_configuration_error (compute_groups num_vars names group_file) ↔
  ∃ gname g x, (gname, g) ∈ read_group_file group_file ∧ x ∈ g ∧ x ∉ names.
Proof.
  unfold compute_groups, compute_groups_data.
  rewrite Flatten.flatten_groups.
  destruct (forallb _ (concat _)) eqn:Hcheck; cbn [negb].
  - split.
    + intros [msg Hraise].
      by apply for_groups_not_configuration_error in Hraise.
    + intros (gname & g & x & Hg & Hx & Hnot). destruct Hnot.
      by apply (names_known_check _ _ Hcheck gname g x).
  - split; [|intros _; by eexists].
    intros _. apply names_check_false in Hcheck as (x & Hx & Hnot).
    apply elem_of_concat in Hx as (g & Hx & Hg).
    apply list_elem_of_fmap in Hg as ([gname g'] & -> & Hg).
    by exists gname, g', x.
Qed.

(** C5. For every valid group file in which each factor belongs to exactly
    one group, the parameter names being pairwise distinct, every row of
    the matrix returned by [compute_groups] sums to exactly 1 and every
    entry is either 0 or 1. *)
Theorem compute_groups_rows_sum_to_one {imports : Imports} (num_vars : nat)
    (names : list string) (group_file : string) :
  NoDup names →
  names_known names (read_group_file group_file) →
  length names = num_vars →
  (∀ name, name ∈ names →
     length (groups_containing name (read_group_file group_file)) = 1) →
  ∃ M, compute_groups num_vars names group_file = inr M ∧
    is_binary M ∧ ∀ row, row ∈ M → row_sum row = 1%Z.
Proof.
  intros Hnodup Hknown Hlen Hone. unfold compute_groups.
  destruct (compute_groups_data_total num_vars names _ Hknown Hlen)
    as (M & Hrun & Hshape & Hbinary & _ & Hdistinct).
  exists M. split; [done|]. split; [done|].
  intros row (i & Hrow)%list_elem_of_lookup_1.
  destruct (lookup_lt_is_Some_2 names i) as [name Hname].
  { destruct Hshape as [Hrows _]. apply lookup_lt_Some in Hrow. lia. }
  rewrite (membership_row_sum names (read_group_file group_file) M i name row);
    [|by auto|done..].
  rewrite Hone; [done|]. by eapply list_elem_of_lookup_2.
Qed.

Lemma compute_groups_rows_sum_to_one_witness :
  NoDup ["x1"; "x2"; "x3"] ∧
  names_known ["x1"; "x2"; "x3"] (demo_group_file "groups.txt") ∧
  (∀ name, name ∈ ["x1"; "x2"; "x3"] →
     length (groups_containing name (demo_group_file "groups.txt")) = 1) ∧
  ∃ M, @compute_groups demo_imports 3 ["x1"; "x2"; "x3"] "groups.txt" = inr M ∧
       is_binary M ∧ ∀ row, row ∈ M → row_sum row = 1%Z.
Proof.
  assert (NoDup ["x1"; "x2"; "x3"]) as Hnodup
    by (apply (bool_decide_unpack _); vm_compute; exact I).
  assert (names_known ["x1"; "x2"; "x3"] (demo_group_file "groups.txt"))
    as Hknown by (apply names_known_check; vm_compute; reflexivity).
  assert (∀ name, name ∈ ["x1"; "x2"; "x3"] →
            length (groups_containing name (demo_group_file "groups.txt")) = 1)
    as Hone.
  { intros name Hname. apply list_elem_of_In in Hname. simpl in Hname.
    destruct Hname as [<-|[<-|[<-|[]]]]; vm_compute; reflexivity. }
  split; [exact Hnodup|]. split; [exact Hknown|]. split; [exact Hone|].
  exact (@compute_groups_rows_sum_to_one demo_imports 3 ["x1"; "x2"; "x3"]
           "groups.txt" Hnodup Hknown eq_refl Hone).
Defined.

(** With a name used for two factors, every factor is a member of exactly
    one group and yet the row of the first factor sums to 0. *)
Lemma compute_groups_duplicate_row_sum :
  names_known ["x1"; "x1"] (demo_group_file "single.txt") ∧
  (∀ name, name ∈ ["x1"; "x1"] →
     length (groups_containing name (demo_group_file "single.txt")) = 1) ∧
  ∃ M row, @compute_groups demo_imports 2 ["x1"; "x1"] "single.txt" = inr M ∧
       M !! 0 = Some row ∧ row_sum row ≠ 1%Z.
Proof.
  split; [apply names_known_check; vm_compute; reflexivity|]. split.
  - intros name Hname. apply list_elem_of_In in Hname. simpl in Hname.
    destruct Hname as [<-|[<-|[]]]; vm_compute; reflexivity.
  - exists [[0]; [1]]%Z, [0%Z]. split; [vm_compute; reflexivity|].
    split; [reflexivity|]. vm_compute. discriminate.
Qed.

(** C6. For every parsed group file whose names are all parameter names,
    [compute_groups] raises nothing and returns a binary matrix, whatever
    the number of groups a factor belongs to; with pairwise distinct
    parameter names the row of a factor sums to the number of groups that
    contain it (0 for a factor in no group, 2 or more for a factor in
    several). *)
Theorem compute_groups_accepts_any_membership {imports : Imports}
    (num_vars : nat) (names : list string) (group_file : string) :
  names_known names (read_group_file group_file) →
  length names = num_vars →
  ∃ M, compute_groups num_vars names group_file = inr M ∧
    has_shape M num_vars (length (read_group_file group_file)) ∧
    is_binary M ∧
    (NoDup names → ∀ i name row,
       names !! i = Some name → M !! i = Some row →
       row_sum row =
         Z.of_nat (length (groups_containing name (read_group_file group_file)))).
Proof.
  intros Hknown Hlen. unfold compute_groups.
  destruct (compute_groups_data_total num_vars names _ Hknown Hlen)
    as (M & Hrun & Hshape & Hbinary & _ & Hdistinct).
  exists M. split; [done|]. split; [done|]. split; [done|].
  intros Hnodup i name row Hname Hrow.
  apply (membership_row_sum names (read_group_file group_file) M i name row);
    auto.
Qed.

Lemma compute_groups_accepts_any_membership_witness :
  names_known ["x1"; "x2"; "x3"] (demo_group_file "overlap.txt") ∧
  length ["x1"; "x2"; "x3"] = 3 ∧
  ∃ M, @compute_groups demo_imports 3 ["x1"; "x2"; "x3"] "overlap.txt" = inr M ∧
       has_shape M 3 2 ∧ is_binary M.
Proof.
  assert (names_known ["x1"; "x2"; "x3"] (demo_group_file "overlap.txt"))
    as Hknown by (apply names_known_check; vm_compute; reflexivity).
  split; [exact Hknown|]. split; [reflexivity|].
  destruct (@compute_groups_accepts_any_membership demo_imports 3
              ["x1"; "x2"; "x3"] "overlap.txt" Hknown eq_refl)
    as (M & Hrun & Hshape & Hbinary & _).
  exists M. split; [exact Hrun|]. split; [exact Hshape | exact Hbinary].
Defined.

(** A group file that lists [x1] in two groups and [x3] in none is accepted:
    no configuration error, the matrix is returned. *)
Lemma compute_groups_overlap_accepted :
  names_known ["x1"; "x2"; "x3"] (demo_group_file "overlap.txt") ∧
  length (groups_containing "x1" (demo_group_file "overlap.txt")) = 2 ∧
  length (groups_containing "x3" (demo_group_file "overlap.txt")) = 0 ∧
  @compute_groups demo_imports 3 ["x1"; "x2"; "x3"] "overlap.txt"
    = inr [[1; 1]; [1; 0]; [0; 0]]%Z ∧
  ¬ raises_configuration_error
      (@compute_groups demo_imports 3 ["x1"; "x2"; "x3"] "overlap.txt").
Proof.
  split; [apply names_known_check; vm_compute; reflexivity|].
  split; [vm_compute; reflexivity|]. split; [vm_compute; reflexivity|].
  split; [vm_compute; reflexivity|].
  intros [msg Hraise]. vm_compute in Hraise. discriminate.
Qed.

End Groups.

(** ** The constructor *)

Module Init.

Section WithImports.

Context {imports : Imports}.

Lemma Morris_init_unfold (parameter_file : string)
    (samples num_levels grid_jump : Z) (group_file : option string)
    (optimal_trajectories : option Z) (w : world) :
  Morris_init parameter_file samples num_levels grid_jump group_file
    optimal_trajectories w =
  match init_groups (read_param_file parameter_file) group_file with
  | inl e => (inl e, w)
  | inr groups =>
      match check_optimal_trajectories optimal_trajectories samples with
      | inl e => (inl e, w)
      | inr _ =>
          sampling_step
            (self_before_sampling parameter_file samples num_levels grid_jump
               groups optimal_trajectories) w
      end
  end.
Proof.
  unfold Morris_init, mbind, M_bind, bind, lift.
  destruct (init_groups _ _) as [e|groups]; [done|].
  destruct (check_optimal_trajectories _ _) as [e|[]]; [done|].
  unfold sampling_step, self_before_sampling. by destruct groups.
Qed.

(** With a well-formed parameter file the only exception of the group step
    is the configuration error of [compute_groups]. *)
Lemma init_groups_error (pf : ParamFile bound) (group_file : option string)
    (e : exn) :
  pf_wf pf → init_groups pf group_file = inl e → ∃ msg, e = ValueError msg.
Proof.
  intros [_ Hnames]. unfold init_groups.
  destruct (truthy group_file) as [f|]; [|done].
  unfold compute_groups.
  destruct (compute_groups_data _ _ _) as [e'|G] eqn:Hrun; [|done].
  intros [= <-]. revert Hrun. unfold compute_groups_data.
  rewrite Flatten.flatten_groups.
  destruct (forallb _ (concat _)) eqn:Hcheck; cbn [negb].
  - apply Groups.names_known_check in Hcheck.
    destruct (Groups.compute_groups_data_total _ _ _ Hcheck Hnames)
      as (M & HM & _).
    unfold compute_groups_data in HM. rewrite Flatten.flatten_groups in HM.
    rewrite (proj2 (Groups.names_check _ _)) in HM
      by by apply Groups.names_known_concat.
    cbn [negb] in HM. congruence.
  - intros [= <-]. by eexists.
Qed.

Lemma check_optimal_trajectories_violation (m samples : Z) :
  violates_precondition m samples →
  ∃ msg, check_optimal_trajectories (Some m) samples = inl (ValueError msg).
Proof.
  intros Hviolates. unfold check_optimal_trajectories.
  destruct (m >=? samples)%Z eqn:H1; [by eexists|].
  destruct (m >? 10)%Z eqn:H2; [by eexists|].
  destruct (m <=? 1)%Z eqn:H3; [by eexists|].
  unfold violates_precondition in Hviolates. lia.
Qed.

Lemma check_optimal_trajectories_pass (m samples : Z) :
  (1 < m < samples)%Z → (m <= 10)%Z →
  check_optimal_trajectories (Some m) samples = inr tt.
Proof.
  intros H1 H2. unfold check_optimal_trajectories.
  destruct (m >=? samples)%Z eqn:E1; [lia|].
  destruct (m >? 10)%Z eqn:E2; [lia|].
  destruct (m <=? 1)%Z eqn:E3; [lia|]. done.
Qed.

Lemma Morris_init_violation (parameter_file : string)
    (samples num_levels grid_jump : Z) (group_file : option string)
    (m : Z) (w : world) :
  violates_precondition m samples →
  ∃ e, Morris_init parameter_file samples num_levels grid_jump group_file
         (Some m) w = (inl e, w) ∧
       (pf_wf (read_param_file parameter_file) →
        is_configuration_error e = true).
Proof.
  intros Hviolates. rewrite Morris_init_unfold.
  destruct (init_groups _ _) as [e|groups] eqn:Hgroups.
  - exists e. split; [done|]. intros Hwf.
    by destruct (init_groups_error _ _ _ Hwf Hgroups) as [msg ->].
  - destruct (check_optimal_trajectories_violation m samples Hviolates)
      as [msg ->]. by exists (ValueError msg).
Qed.

Lemma Morris_init_violation_raises (parameter_file : string)
    (samples num_levels grid_jump : Z) (group_file : option string)
    (m : Z) (w : world) :
  violates_precondition m samples →
  raises_error (pf_wf (read_param_file parameter_file))
    (Morris_init parameter_file samples num_levels grid_jump group_file
       (Some m) w).1.
Proof.
  intros Hviolates.
  destruct (Morris_init_violation parameter_file samples num_levels grid_jump
              group_file m w Hviolates) as (e & -> & Hkind).
  by exists e.
Qed.

Lemma morris_oat_sample_bad_grid (N : Z) (param_file : string)
    (num_levels grid_jump : Z) (w : world) :
  grid_ok num_levels grid_jump = false →
  ∃ msg w', morris_oat_sample N param_file num_levels grid_jump w
            = (inl (ValueError msg), w').
Proof.
  intros Hgrid. unfold morris_oat_sample, mbind, M_bind, bind, enter.
  rewrite Hgrid. by eexists _, _.
Qed.

Lemma morris_groups_sample_bad_grid (N : Z) (G : list (list Z))
    (num_levels grid_jump : Z) (w : world) :
  grid_ok num_levels grid_jump = false →
  ∃ msg w', morris_groups_sample N G num_levels grid_jump w
            = (inl (ValueError msg), w').
Proof.
  intros Hgrid. unfold morris_groups_sample, mbind, M_bind, bind, enter.
  rewrite Hgrid. by eexists _, _.
Qed.

Lemma grid_ok_valid (num_levels grid_jump : Z) :
  grid_ok num_levels grid_jump = true ↔ grid_valid num_levels grid_jump.
Proof.
  unfold grid_ok, grid_valid.
  rewrite !andb_true_iff, Z.leb_le, !Z.ltb_lt. tauto.
Qed.

Lemma sampling_step_bad_grid (self : Morris) (w : world) :
  grid_ok (num_levels self) (grid_jump self) = false →
  raises_configuration_error (sampling_step self w).1.
Proof.
  intros Hgrid. unfold sampling_step.
  destruct (groups self) as [G|] eqn:Hgroups.
  - unfold create_sample_with_groups. rewrite Hgroups.
    unfold mbind, M_bind, bind.
    destruct (morris_groups_sample_bad_grid (samples self) G _ _ w Hgrid)
      as (msg & w' & ->). by exists msg.
  - unfold create_sample.
    destruct (morris_oat_sample_bad_grid (samples self) (parameter_file self)
                _ _ w Hgrid) as (msg & w' & Hsample).
    destruct (optimal_trajectories self); unfold mbind, M_bind, bind;
      rewrite Hsample; by exists msg.
Qed.

(** Sampling is always recorded: the step that ends [__init__] enters one of
    the two samplers first. *)
Lemma sampling_step_calls (self : Morris) (w : world) :
  ∃ c rest, calls (sampling_step self w).2 = calls w ++ c :: rest.
Proof.
  unfold sampling_step, create_sample, create_sample_with_groups,
    morris_oat_sample, morris_groups_sample, find_optimum_trajectories,
    mbind, M_bind, bind, enter, draw, alloc, deref, lift, ret, raise.
  repeat case_match; simplify_eq/=; try (by eexists _, []);
    rewrite <- ?app_assoc; by eexists _, _.
Qed.

Lemma Morris_init_check_error (parameter_file : string)
    (samples num_levels grid_jump : Z) (group_file : option string)
    (m : option Z) (w : world) (groups : option (list (list Z))) (e : exn) :
  init_groups (read_param_file parameter_file) group_file = inr groups →
  check_optimal_trajectories m samples = inl e →
  Morris_init parameter_file samples num_levels grid_jump group_file m w
    = (inl e, w).
Proof. intros Hgroups Hcheck. by rewrite Morris_init_unfold, Hgroups, Hcheck. Qed.

(** C1. For every construction of a Morris sample with a requested
    optimal-trajectory count [m]: if [m >= samples] an error is raised; if
    [m > 10] an error is raised; if [m <= 1] an error is raised; the error
    is a configuration error whenever the parameter file is well formed (as
    many names and bounds as factors); and if [1 < m < samples] and
    [m <= 10] the guards raise nothing for [m]: once the groups are computed
    the constructor goes on to the sampling step. *)
Theorem optimal_trajectories_preconditions (parameter_file : string)
    (samples num_levels grid_jump : Z) (group_file : option string)
    (m : Z) (w : world) :
  ((m >= samples)%Z →
     raises_error (pf_wf (read_param_file parameter_file))
       (Morris_init parameter_file samples num_levels grid_jump group_file
          (Some m) w).1) ∧
  ((m > 10)%Z →
     raises_error (pf_wf (read_param_file parameter_file))
       (Morris_init parameter_file samples num_levels grid_jump group_file
          (Some m) w).1) ∧
  ((m <= 1)%Z →
     raises_error (pf_wf (read_param_file parameter_file))
       (Morris_init parameter_file samples num_levels grid_jump group_file
          (Some m) w).1) ∧
  ((1 < m < samples)%Z → (m <= 10)%Z →
     check_optimal_trajectories (Some m) samples = inr tt ∧
     ∀ groups,
       init_groups (read_param_file parameter_file) group_file = inr groups →
       Morris_init parameter_file samples num_levels grid_jump group_file
         (Some m) w =
       sampling_step
         (self_before_sampling parameter_file samples num_levels grid_jump
            groups (Some m)) w).
Proof.
  split_and!.
  - intros Hm. apply Morris_init_violation_raises. by left.
  - intros Hm. apply Morris_init_violation_raises. right. by left.
  - intros Hm. apply Morris_init_violation_raises. right. by right.
  - intros Hm Hten.
    pose proof (check_optimal_trajectories_pass m samples Hm Hten) as Hpass.
    split; [done|]. intros groups Hgroups.
    by rewrite Morris_init_unfold, Hgroups, Hpass.
Qed.

(** C10. When several optimal-trajectory preconditions are violated at once,
    the checks are applied in the fixed order [m >= samples], then [m > 10],
    then [m <= 1], and only the error of the first failing check is raised;
    in particular for [m = 11] with [samples <= 11] the "fewer than samples"
    error is raised, not the "greater than 10" error.  The three messages
    are pairwise different. *)
Theorem precondition_order (parameter_file : string)
    (samples num_levels grid_jump : Z) (group_file : option string)
    (m : Z) (w : world) (groups : option (list (list Z))) :
  init_groups (read_param_file parameter_file) group_file = inr groups →
  ((m >= samples)%Z →
     Morris_init parameter_file samples num_levels grid_jump group_file
       (Some m) w = (inl (ValueError msg_fewer_than_samples), w)) ∧
  ((m < samples)%Z → (m > 10)%Z →
     Morris_init parameter_file samples num_levels grid_jump group_file
       (Some m) w = (inl (ValueError msg_greater_than_10), w)) ∧
  ((m < samples)%Z → (m <= 10)%Z → (m <= 1)%Z →
     Morris_init parameter_file samples num_levels grid_jump group_file
       (Some m) w = (inl (ValueError msg_two_or_more), w)) ∧
  ((samples <= 11)%Z →
     Morris_init parameter_file samples num_levels grid_jump group_file
       (Some 11%Z) w = (inl (ValueError msg_fewer_than_samples), w)) ∧
  msg_fewer_than_samples ≠ msg_greater_than_10 ∧
  msg_fewer_than_samples ≠ msg_two_or_more ∧
  msg_greater_than_10 ≠ msg_two_or_more.
Proof.
  intros Hgroups. split_and!; try discriminate.
  - intros H1. apply (Morris_init_check_error _ _ _ _ _ _ _ groups); [done|].
    unfold check_optimal_trajectories.
    destruct (m >=? samples)%Z eqn:E1; [done | lia].
  - intros H1 H2. apply (Morris_init_check_error _ _ _ _ _ _ _ groups); [done|].
    unfold check_optimal_trajectories.
    destruct (m >=? samples)%Z eqn:E1; [lia|].
    destruct (m >? 10)%Z eqn:E2; [done | lia].
  - intros H1 H2 H3.
    apply (Morris_init_check_error _ _ _ _ _ _ _ groups); [done|].
    unfold check_optimal_trajectories.
    destruct (m >=? samples)%Z eqn:E1; [lia|].
    destruct (m >? 10)%Z eqn:E2; [lia|].
    destruct (m <=? 1)%Z eqn:E3; [done | lia].
  - intros H1. apply (Morris_init_check_error _ _ _ _ _ _ _ groups); [done|].
    unfold check_optimal_trajectories.
    destruct (11 >=? samples)%Z eqn:E1; [done | lia].
Qed.

(** C2. For every construction of a Morris sample, if [num_levels] is not an
    even integer at least 2, or [grid_jump] is not a positive integer
    strictly less than [num_levels], then an error is raised, and it is a
    configuration error whenever the parameter file is well formed. *)
Theorem grid_preconditions (parameter_file : string)
    (samples num_levels grid_jump : Z) (group_file : option string)
    (optimal_trajectories : option Z) (w : world) :
  ¬ (Z.even num_levels = true ∧ 2 ≤ num_levels)%Z ∨
  ¬ (0 < grid_jump ∧ grid_jump < num_levels)%Z →
  raises_error (pf_wf (read_param_file parameter_file))
    (Morris_init parameter_file samples num_levels grid_jump group_file
       optimal_trajectories w).1.
Proof.
  intros Hgrid.
  assert (grid_ok num_levels grid_jump = false) as Hbad.
  { destruct (grid_ok num_levels grid_jump) eqn:Hok; [|done].
    apply grid_ok_valid in Hok. unfold grid_valid in Hok. tauto. }
  rewrite Morris_init_unfold.
  destruct (init_groups _ _) as [e|groups] eqn:Hgroups.
  { exists e. split; [done|]. intros Hwf.
    by destruct (init_groups_error _ _ _ Hwf Hgroups) as [msg ->]. }
  destruct (check_optimal_trajectories _ _) as [e|[]] eqn:Hcheck.
  { destruct optimal_trajectories as [m|]; [|done].
    unfold check_optimal_trajectories in Hcheck.
    repeat case_match; simplify_eq; by eexists. }
  destruct (sampling_step_bad_grid
              (self_before_sampling parameter_file samples num_levels
                 grid_jump groups optimal_trajectories) w Hbad) as [msg Hmsg].
  exists (ValueError msg). by split.
Qed.

(** C8. For every Morris construction whose optimal-trajectory count
    violates a precondition, the error is raised before any trajectory
    sampling is performed: the constructor returns an exception (a
    configuration error when the parameter file is well formed) instead of
    an instance and leaves the world as it found it.  No sampler has been
    entered, since a sampling step started there would have recorded a
    call; no random number has been drawn; no array, hence no
    [output_sample], has been allocated. *)
Theorem precondition_error_before_sampling (parameter_file : string)
    (samples num_levels grid_jump : Z) (group_file : option string)
    (m : Z) (w : world) :
  violates_precondition m samples →
  ∃ e, Morris_init parameter_file samples num_levels grid_jump group_file
         (Some m) w = (inl e, w) ∧
       (pf_wf (read_param_file parameter_file) →
        is_configuration_error e = true) ∧
       ∀ self, calls (sampling_step self w).2 ≠ calls w.
Proof.
  intros Hviolates.
  assert (∀ self, calls (sampling_step self w).2 ≠ calls w) as Hrecorded.
  { intros self Heq. destruct (sampling_step_calls self w) as (c & rest & Hc).
    rewrite Hc in Heq. apply (f_equal length) in Heq.
    rewrite length_app in Heq. simpl in Heq. lia. }
  destruct (Morris_init_violation parameter_file samples num_levels grid_jump
              group_file m w Hviolates) as (e & Hrun & Hkind).
  by exists e.
Qed.

End WithImports.

Lemma demo_param_file_wf : pf_wf (@read_param_file demo_imports "params.txt").
Proof. vm_compute. split; reflexivity. Defined.

Lemma optimal_trajectories_preconditions_witness :
  raises_configuration_error
    (@Morris_init demo_imports "params.txt" 5 4 2 None (Some 5%Z) demo_world).1 ∧
  raises_configuration_error
    (@Morris_init demo_imports "params.txt" 20 4 2 None (Some 11%Z) demo_world).1 ∧
  raises_configuration_error
    (@Morris_init demo_imports "params.txt" 5 4 2 None (Some 1%Z) demo_world).1 ∧
  check_optimal_trajectories (Some 3%Z) 5 = inr tt.
Proof.
  assert (∀ r : result (@Morris demo_imports),
            raises_error (pf_wf (@read_param_file demo_imports "params.txt")) r →
            raises_configuration_error r) as Hkind.
  { intros r (e & -> & He). specialize (He demo_param_file_wf).
    destruct e as [msg| | |]; try discriminate He. by exists msg. }
  split_and!.
  - apply Hkind.
    destruct (@optimal_trajectories_preconditions demo_imports "params.txt"
                5 4 2 None 5 demo_world) as (H1 & _).
    apply H1. lia.
  - apply Hkind.
    destruct (@optimal_trajectories_preconditions demo_imports "params.txt"
                20 4 2 None 11 demo_world) as (_ & H2 & _).
    apply H2. lia.
  - apply Hkind.
    destruct (@optimal_trajectories_preconditions demo_imports "params.txt"
                5 4 2 None 1 demo_world) as (_ & _ & H3 & _).
    apply H3. lia.
  - destruct (@optimal_trajectories_preconditions demo_imports "params.txt"
                5 4 2 None 3 demo_world) as (_ & _ & _ & H4).
    apply H4; lia.
Defined.

Lemma precondition_order_witness :
  @init_groups demo_imports (@read_param_file demo_imports "params.txt")
    (Some "groups.txt") = inr (Some [[1; 0]; [0; 1]; [1; 0]]%Z) ∧
  @Morris_init demo_imports "params.txt" 5 4 2 (Some "groups.txt")
    (Some 12%Z) demo_world
    = (inl (ValueError msg_fewer_than_samples), demo_world) ∧
  @Morris_init demo_imports "params.txt" 20 4 2 (Some "groups.txt")
    (Some 12%Z) demo_world
    = (inl (ValueError msg_greater_than_10), demo_world) ∧
  @Morris_init demo_imports "params.txt" 20 4 2 (Some "groups.txt")
    (Some 0%Z) demo_world
    = (inl (ValueError msg_two_or_more), demo_world) ∧
  @Morris_init demo_imports "params.txt" 11 4 2 (Some "groups.txt")
    (Some 11%Z) demo_world
    = (inl (ValueError msg_fewer_than_samples), demo_world).
Proof.
  assert (@init_groups demo_imports (@read_param_file demo_imports "params.txt")
            (Some "groups.txt") = inr (Some [[1; 0]; [0; 1]; [1; 0]]%Z))
    as Hgroups by (vm_compute; reflexivity).
  split; [exact Hgroups|]. split_and!.
  - destruct (@precondition_order demo_imports "params.txt" 5 4 2
                (Some "groups.txt") 12 demo_world _ Hgroups) as (H1 & _).
    apply H1. lia.
  - destruct (@precondition_order demo_imports "params.txt" 20 4 2
                (Some "groups.txt") 12 demo_world _ Hgroups) as (_ & H2 & _).
    apply H2; lia.
  - destruct (@precondition_order demo_imports "params.txt" 20 4 2
                (Some "groups.txt") 0 demo_world _ Hgroups) as (_ & _ & H3 & _).
    apply H3; lia.
  - destruct (@precondition_order demo_imports "params.txt" 11 4 2
                (Some "groups.txt") 11 demo_world _ Hgroups)
      as (_ & _ & _ & H4 & _).
    apply H4. lia.
Defined.

Lemma grid_preconditions_witness :
  (¬ (Z.even 3 = true ∧ 2 ≤ 3)%Z ∨ ¬ (0 < 2 ∧ 2 < 3)%Z) ∧
  raises_configuration_error
    (@Morris_init demo_imports "params.txt" 5 3 2 None None demo_world).1.
Proof.
  assert (¬ (Z.even 3 = true ∧ 2 ≤ 3)%Z ∨ ¬ (0 < 2 ∧ 2 < 3)%Z) as Hgrid.
  { left. intros [Heven _]. vm_compute in Heven. discriminate. }
  split; [exact Hgrid|].
  destruct (@grid_preconditions demo_imports "params.txt" 5 3 2 None None
              demo_world Hgrid) as (e & -> & He).
  specialize (He demo_param_file_wf).
  destruct e as [msg| | |]; try discriminate He. by exists msg.
Defined.

Lemma precondition_error_before_sampling_witness :
  violates_precondition 11 20 ∧
  ∃ e, @Morris_init demo_imports "params.txt" 20 4 2 (Some "groups.txt")
         (Some 11%Z) demo_world = (inl e, demo_world).
Proof.
  assert (violates_precondition 11 20) as Hviolates.
  { unfold violates_precondition. lia. }
  split; [exact Hviolates|].
  destruct (@precondition_error_before_sampling demo_imports "params.txt"
              20 4 2 (Some "groups.txt") 11 demo_world Hviolates)
    as (e & Hrun & _).
  exists e. exact Hrun.
Defined.

End Init.

(** ** The accessors of the sample *)

Module Sample.

Section WithImports.

Context {imports : Imports}.

(** An instance that [__init__] returns holds a reference to an allocated
    array. *)
Lemma Morris_init_built (parameter_file : string)
    (samples num_levels grid_jump : Z) (group_file : option string)
    (optimal_trajectories : option Z) (w w' : world) (self : Morris) :
  Morris_init parameter_file samples num_levels grid_jump group_file
    optimal_trajectories w = (inr self, w') →
  ∃ l a, output_sample self = Some l ∧ heap w' !! l = Some a.
Proof.
  rewrite Init.Morris_init_unfold.
  unfold sampling_step, self_before_sampling, create_sample,
    create_sample_with_groups, morris_oat_sample, morris_groups_sample,
    find_optimum_trajectories, mbind, M_bind, bind, enter, draw, alloc,
    deref, lift, ret, raise.
  intros Hrun. repeat case_match; simplify_eq/=;
    eexists _, _; (split; [done|]); apply lookup_insert_eq.
Qed.

Lemma get_input_sample_scaled_run (self : Morris) (w : world) (l : nat)
    (a : ndarray) :
  output_sample self = Some l → heap w !! l = Some a →
  get_input_sample_scaled self w =
    (match (scale_samples a (bounds self)).2 with
     | inl e => inl e
     | inr _ => inr (fresh (dom (heap w)))
     end,
     MkWorld
       (<[fresh (dom (heap w)) := (scale_samples a (bounds self)).1]> (heap w))
       (calls w) (gen w)).
Proof.
  intros Hl Ha.
  unfold get_input_sample_scaled, mbind, M_bind, bind, deref, alloc, update, ret.
  rewrite Hl, Ha. simpl. rewrite lookup_insert_eq. simpl.
  rewrite insert_insert_eq. by destruct (scale_samples a (bounds self)).2.
Qed.

(** C7. For every built sample, calling [get_input_sample_scaled] leaves the
    stored [output_sample] unchanged: the scaling is applied to a copy, a
    new array, so that [get_input_sample_unscaled] returns the same
    reference before and after the call and the array behind it (like every
    array that existed before the call) has the same contents.  This holds
    whether the scaling returns, in which case the result is the new array
    with the scaled contents, or raises. *)
Theorem scaling_works_on_a_copy (self : Morris) (w : world) (l : nat)
    (a : ndarray) :
  output_sample self = Some l → heap w !! l = Some a →
  ∃ w',
    (get_input_sample_scaled self w).2 = w' ∧
    get_input_sample_unscaled self w = (inr (Some l), w) ∧
    get_input_sample_unscaled self w' = (inr (Some l), w') ∧
    heap w' !! l = Some a ∧
    (∀ k b, heap w !! k = Some b → heap w' !! k = Some b) ∧
    ((scale_samples a (bounds self)).2 = inr tt →
     ∃ l', (get_input_sample_scaled self w).1 = inr l' ∧ l' ≠ l ∧
       heap w' !! l' = Some (scale_samples a (bounds self)).1) ∧
    (∀ e, (scale_samples a (bounds self)).2 = inl e →
       (get_input_sample_scaled self w).1 = inl e).
Proof.
  intros Hl Ha.
  assert (∀ k b, heap w !! k = Some b → k ≠ fresh (dom (heap w))) as Hfresh.
  { intros k b Hk ->. apply (is_fresh (dom (heap w))).
    apply elem_of_dom. by exists b. }
  rewrite (get_input_sample_scaled_run self w l a Hl Ha).
  eexists. split; [done|].
  unfold get_input_sample_unscaled, ret. rewrite Hl.
  split; [done|]. split; [done|]. simpl.
  split; [rewrite lookup_insert_ne; [done|]; intros Heq; by apply (Hfresh l a)|].
  split.
  { intros k b Hk. rewrite lookup_insert_ne; [done|].
    intros Heq. by apply (Hfresh k b). }
  split.
  - intros ->. eexists. split; [done|].
    split; [intros Heq; by apply (Hfresh l a) | apply lookup_insert_eq].
  - by intros e ->.
Qed.

End WithImports.

Lemma scaling_works_on_a_copy_witness :
  @Morris_init demo_imports "params.txt" 5 4 2 None None demo_world
    = (inr demo_self, demo_built_world) ∧
  output_sample demo_self = Some 0 ∧
  heap demo_built_world !! 0 = Some [5; 3; 4; 2; 0]%Z ∧
  ∃ l' w', get_input_sample_scaled demo_self demo_built_world = (inr l', w') ∧
    l' ≠ 0 ∧
    heap w' !! l' = Some [10; 6; 8; 4; 0]%Z ∧
    heap w' !! 0 = Some [5; 3; 4; 2; 0]%Z.
Proof.
  assert (heap demo_built_world !! 0 = Some [5; 3; 4; 2; 0]%Z) as Hheap
    by (vm_compute; reflexivity).
  split; [vm_compute; reflexivity|].
  split; [reflexivity|]. split; [exact Hheap|].
  destruct (@scaling_works_on_a_copy demo_imports demo_self demo_built_world
              0 [5; 3; 4; 2; 0]%Z eq_refl Hheap)
    as (w' & Hw' & _ & _ & Hkept & _ & Hscaled & _).
  destruct (Hscaled eq_refl) as (l' & Hrun & Hne & Hcopy).
  exists l', w'. split; [|split; [exact Hne|split; [exact Hcopy | exact Hkept]]].
  rewrite <- Hw', <- Hrun. by destruct (get_input_sample_scaled _ _).
Defined.

End Sample.

(** * Further properties *)

(** ** [flatten] *)

Module FlattenMore.

(** X1. What [flatten] yields for a list is what it yields for its parts, one
    after the other; the grouping of the elements into sublists does not
    matter: wrapping a list into a list, or adding empty lists anywhere in
    front, changes nothing. *)
Theorem flatten_regroup :
  (∀ l1 l2 : list pyval, flatten (l1 ++ l2) = flatten l1 ++ flatten l2) ∧
  (∀ l : list pyval, flatten [PList l] = flatten l) ∧
  (∀ l1 l2 : list pyval, flatten (PList l1 :: l2) = flatten (l1 ++ l2)) ∧
  (∀ l : list pyval, flatten (PList [] :: l) = flatten l) ∧
  (∀ l : list pyval, flatten [PList [PList l]] = flatten l).
Proof.
  split_and!.
  - apply Flatten.flatten_app.
  - intros l. rewrite Flatten.flatten_cons_list. by rewrite app_nil_r.
  - apply Flatten.flatten_cons_list.
  - intros l. by rewrite Flatten.flatten_cons_list.
  - intros l. rewrite Flatten.flatten_cons_list, app_nil_r.
    rewrite Flatten.flatten_cons_list. by rewrite app_nil_r.
Qed.

End FlattenMore.

(** ** [compute_groups] *)

Module GroupsMore.

Lemma existsb_elem_of {A : Type} (f : A → bool) (l : list A) :
  existsb f l = true ↔ ∃ x, x ∈ l ∧ f x = true.
Proof.
  induction l as [|y rest IH]; simpl.
  - split; [done|]. by intros (x & ?%not_elem_of_nil & _).
  - rewrite orb_true_iff, IH. split.
    + intros [Hy|(x & Hx & Hf)]; [exists y | exists x];
        (split; [|done]); [left | by right].
    + intros (x & [->|Hx]%elem_of_cons & Hf); [by left|]. right. eauto.
Qed.

Lemma existsb_false_elem_of {A : Type} (f : A → bool) (l : list A) :
  existsb f l = false ↔ ∀ x, x ∈ l → f x = false.
Proof.
  split.
  - intros Hnone x Hx. destruct (f x) eqn:Hf; [|done].
    assert (existsb f l = true) by (apply existsb_elem_of; eauto).
    congruence.
  - intros Hall. destruct (existsb f l) eqn:Hex; [|done].
    apply existsb_elem_of in Hex as (x & Hx & Hf).
    rewrite (Hall x Hx) in Hf. done.
Qed.

Lemma np_set_out_of_range (out : list (list Z)) (r c i j : nat) (v : Z) :
  has_shape out r c → r ≤ i → np_set out i j v = inl IndexError.
Proof.
  intros [Hrows _] Hi. unfold np_set.
  by rewrite (proj2 (lookup_ge_None out i)) by lia.
Qed.

Lemma for_params_out_of_range (indices : gmap string nat) (r c row : nat)
    (group : list string) :
  row < c →
  (∀ p, p ∈ group → is_Some (indices !! p)) →
  existsb (out_of_range indices r) group = true →
  ∀ output, has_shape output r c →
    for_params indices row group output = inl IndexError.
Proof.
  intros Hrow. induction group as [|p rest IH]; intros Hknown Hbad output Hshape;
    [done|].
  destruct (Hknown p) as [col Hcol]; [left|].
  cbn [for_params]. rewrite Hcol.
  destruct (decide (r ≤ col)) as [Hge|Hlt].
  - by rewrite (np_set_out_of_range output r c col row 1).
  - destruct (Groups.np_set_spec output r c col row 1 Hshape)
      as (out1 & -> & Hshape1 & _); [lia | done |].
    apply IH; [|by (cbn [existsb] in Hbad; unfold out_of_range at 1 in Hbad;
                    rewrite Hcol, bool_decide_eq_false_2 in Hbad by done)|done].
    intros q Hq. apply Hknown. by right.
Qed.

Lemma for_groups_out_of_range (indices : gmap string nat) (r c : nat)
    (groups : list (list string)) :
  (∀ g p, g ∈ groups → p ∈ g → is_Some (indices !! p)) →
  existsb (existsb (out_of_range indices r)) groups = true →
  ∀ row output, row + length groups ≤ c → has_shape output r c →
    for_groups indices row groups output = inl IndexError.
Proof.
  induction groups as [|g rest IH]; intros Hknown Hbad row output Hrow Hshape;
    [done|].
  simpl in Hrow. cbn [for_groups].
  destruct (existsb (out_of_range indices r) g) eqn:Hg.
  - rewrite (for_params_out_of_range indices r c row g); [done|lia| |done..].
    intros p Hp. apply (Hknown g); [left | done].
  - destruct (Groups.for_params_spec indices r c row g) with (output := output)
      as (out1 & -> & Hshape1 & _); [lia | | done |].
    { intros p Hp. destruct (Hknown g p) as [i Hi]; [left | done |].
      exists i. split; [done|].
      pose proof (proj1 (existsb_false_elem_of _ _) Hg p Hp) as Hin.
      unfold out_of_range in Hin. rewrite Hi in Hin.
      apply bool_decide_eq_false in Hin. lia. }
    apply IH; [|by (cbn [existsb] in Hbad; rewrite Hg in Hbad)|lia|done].
    intros g' p Hg' Hp. apply (Hknown g'); [by right | done].
Qed.

Lemma names_known_dec (names : list string) (data : list (string * list string)) :
  forallb (λ x, bool_decide (x ∈ names)) (concat (map snd data)) = false →
  ¬ names_known names data.
Proof.
  intros Hcheck Hknown.
  pose proof (proj1 (Groups.names_known_concat names data) Hknown) as Hall.
  pose proof (proj2 (Groups.names_check names _) Hall). congruence.
Qed.

Lemma referenced_elem_of (data : list (string * list string)) (p : string) :
  p ∈ referenced data ↔ ∃ gname g, (gname, g) ∈ data ∧ p ∈ g.
Proof.
  unfold referenced. rewrite Groups.elem_of_concat. split.
  - intros (g & Hp & ([gname g'] & -> & Hg)%list_elem_of_fmap). eauto.
  - intros (gname & g & Hg & Hp). exists g. split; [done|].
    apply list_elem_of_fmap. by exists (gname, g).
Qed.

(** Some referenced name has a position that is not a row. *)
Lemma out_of_range_referenced (n : nat) (names : list string)
    (data : list (string * list string)) :
  existsb (existsb (out_of_range (dict (enumerate_swapped 0 names)) n))
    (map snd data) = true ↔
  ∃ p i, p ∈ referenced data ∧ last_index p names = Some i ∧ n ≤ i.
Proof.
  rewrite existsb_elem_of. split.
  - intros (g & Hg & (p & Hp & Hbad)%existsb_elem_of).
    unfold out_of_range in Hbad. rewrite Groups.indices_lookup in Hbad.
    destruct (last_index p names) as [i|] eqn:Hlast; [|done].
    apply bool_decide_eq_true in Hbad. exists p, i.
    split; [|done]. unfold referenced. apply Groups.elem_of_concat. eauto.
  - intros (p & i & (g & Hp & Hg)%Groups.elem_of_concat & Hlast & Hge).
    exists g. split; [done|]. apply existsb_elem_of. exists p. split; [done|].
    unfold out_of_range. rewrite Groups.indices_lookup, Hlast.
    by apply bool_decide_eq_true.
Qed.

Lemma indices_known (names : list string) (data : list (string * list string)) :
  names_known names data →
  ∀ g p, g ∈ map snd data → p ∈ g →
    is_Some (dict (enumerate_swapped 0 names) !! p).
Proof.
  intros Hknown g p ([gname g'] & -> & Hg)%list_elem_of_fmap Hp.
  rewrite Groups.indices_lookup.
  destruct (last_index p names) as [i|] eqn:Hlast; [done|].
  apply Groups.last_index_None in Hlast. destruct Hlast. eauto.
Qed.

(** The three outcomes of [compute_groups_data]. *)
Lemma compute_groups_data_cases (n : nat) (names : list string)
    (data : list (string * list string)) :
  (¬ names_known names data ∧
   compute_groups_data n names data = inl (ValueError msg_group_names)) ∨
  (names_known names data ∧
   existsb (existsb (out_of_range (dict (enumerate_swapped 0 names)) n))
     (map snd data) = true ∧
   compute_groups_data n names data = inl IndexError) ∨
  (names_known names data ∧
   existsb (existsb (out_of_range (dict (enumerate_swapped 0 names)) n))
     (map snd data) = false ∧
   ∃ M, compute_groups_data n names data = inr M ∧
     has_shape M n (length data) ∧
     ∀ i j gname g, data !! j = Some (gname, g) →
       np_get M i j =
         if decide (i < n)
         then Some (if hits (dict (enumerate_swapped 0 names)) i g
                    then 1%Z else 0%Z)
         else None).
Proof.
  unfold compute_groups_data. rewrite Flatten.flatten_groups.
  destruct (forallb _ (concat _)) eqn:Hcheck; cbn [negb];
    [|left; split; [by apply names_known_dec | done]].
  right. apply Groups.names_known_check in Hcheck.
  pose proof (indices_known names data Hcheck) as Hindices.
  destruct (existsb _ (map snd data)) eqn:Hbad; [left | right];
    (split; [done|]); (split; [done|]).
  - apply (for_groups_out_of_range _ n (length (map fst data))); try done.
    + rewrite !length_map. lia.
    + apply Groups.has_shape_zeros.
  - destruct (Groups.for_groups_spec (dict (enumerate_swapped 0 names)) n
                (length (map fst data)) (map snd data)) with
      (row := 0) (output := np_zeros n (length (map fst data)))
      as (M & Hrun & Hshape & Hget).
    { intros g p Hg Hp. destruct (Hindices g p Hg Hp) as [i Hi].
      exists i. split; [done|].
      pose proof (proj1 (existsb_false_elem_of _ _) Hbad g Hg) as Hgood.
      pose proof (proj1 (existsb_false_elem_of _ _) Hgood p Hp) as Hin.
      unfold out_of_range in Hin. rewrite Hi in Hin.
      apply bool_decide_eq_false in Hin. lia. }
    { rewrite !length_map. lia. }
    { apply Groups.has_shape_zeros. }
    rewrite length_map in Hshape.
    exists M. split; [done|]. split; [done|].
    intros i j gname g Hj. rewrite Hget.
    destruct (decide (i < n)) as [Hi|Hi].
    + rewrite Groups.np_get_zeros;
        [|done|rewrite length_map; by eapply lookup_lt_Some].
      simpl. f_equal. unfold group_hits.
      rewrite bool_decide_eq_true_2 by lia.
      replace (j - 0) with j by lia.
      by rewrite list_lookup_fmap, Hj.
    + unfold np_get, np_zeros.
      by rewrite (proj2 (lookup_ge_None _ i))
        by (rewrite length_replicate; lia).
Qed.

(** X2. [compute_groups] has exactly three outcomes.  It raises the
    configuration error when some referenced name is no parameter name; it
    raises [IndexError] when all names are known but the position of one of
    them is [num_vars] or more; it returns a matrix otherwise.  It never
    raises anything else, and no [KeyError] in particular: the check of the
    names guards the look-up in the dictionary. *)
Theorem compute_groups_outcomes (num_vars : nat) (names : list string)
    (data : list (string * list string)) :
  (compute_groups_data num_vars names data = inl (ValueError msg_group_names) ↔
   ¬ names_known names data) ∧
  (compute_groups_data num_vars names data = inl IndexError ↔
   names_known names data ∧
   ∃ p i, p ∈ referenced data ∧ last_index p names = Some i ∧ num_vars ≤ i) ∧
  ((∃ M, compute_groups_data num_vars names data = inr M) ↔
   names_known names data ∧
   ∀ p i, p ∈ referenced data → last_index p names = Some i → i < num_vars) ∧
  (∀ e, compute_groups_data num_vars names data = inl e →
     e = ValueError msg_group_names ∨ e = IndexError).
Proof.
  pose proof (out_of_range_referenced num_vars names data) as Hrange.
  destruct (compute_groups_data_cases num_vars names data)
    as [[Hunknown ->]|[(Hknown & Hbad & ->)|(Hknown & Hgood & M & -> & _)]].
  - split_and!.
    + done.
    + split; [done | by intros [? _]].
    + split; [by intros [? ?] | by intros [? _]].
    + intros e [= <-]. by left.
  - split_and!.
    + split; [done | by intros ?].
    + split; [|done]. intros _. split; [done|]. by apply Hrange.
    + split; [by intros [? ?]|]. intros [_ Hall].
      apply Hrange in Hbad as (p & i & Hp & Hlast & Hge).
      specialize (Hall p i Hp Hlast). lia.
    + intros e [= <-]. by right.
  - split_and!.
    + split; [done | by intros ?].
    + split; [done|]. intros [_ Hsome]. apply Hrange in Hsome. congruence.
    + split; [|by eexists]. intros _. split; [done|].
      intros p i Hp Hlast. destruct (decide (i < num_vars)); [done|].
      assert (existsb (existsb (out_of_range (dict (enumerate_swapped 0 names))
                num_vars)) (map snd data) = true) as Habs.
      { apply Hrange. exists p, i. split; [done|]. split; [done | lia]. }
      congruence.
    + done.
Qed.

Lemma hits_Exists (names group : list string) (i : nat) :
  hits (dict (enumerate_swapped 0 names)) i group =
  bool_decide (Exists (λ p, last_index p names = Some i) group).
Proof.
  destruct (hits _ i group) eqn:Hhits; symmetry.
  - apply bool_decide_eq_true, Exists_exists.
    by apply Groups.hits_indices.
  - apply bool_decide_eq_false. intros Hex%Exists_exists.
    apply Groups.hits_indices in Hex. congruence.
Qed.

Lemma matrix_ext (M M' : list (list Z)) (r c : nat) :
  has_shape M r c → has_shape M' r c →
  (∀ i j, i < r → j < c → np_get M i j = np_get M' i j) →
  M = M'.
Proof.
  intros [Hr Hc] [Hr' Hc'] Hget. apply list_eq. intros i.
  destruct (M !! i) as [row|] eqn:Hrow.
  - assert (i < r) as Hi by (rewrite <- Hr; by eapply lookup_lt_Some).
    destruct (lookup_lt_is_Some_2 M' i) as [row' Hrow']; [lia|].
    rewrite Hrow'. f_equal.
    assert (length row = c) as Hlen
      by by eapply (proj1 (Forall_lookup _ _) Hc).
    assert (length row' = c) as Hlen'
      by by eapply (proj1 (Forall_lookup _ _) Hc').
    apply list_eq. intros j. destruct (decide (j < c)) as [Hj|Hj].
    + specialize (Hget i j Hi Hj). unfold np_get in Hget.
      by rewrite Hrow, Hrow' in Hget.
    + by rewrite !(proj2 (lookup_ge_None _ j)) by lia.
  - symmetry. apply lookup_ge_None. apply lookup_ge_None in Hrow. lia.
Qed.

(** A returned matrix, entry by entry. *)
Lemma compute_groups_data_success (n : nat) (names : list string)
    (data : list (string * list string)) (M : list (list Z)) :
  compute_groups_data n names data = inr M →
  names_known names data ∧
  has_shape M n (length data) ∧
  ∀ i j gname g, i < n → data !! j = Some (gname, g) →
    np_get M i j =
      Some (if bool_decide (Exists (λ p, last_index p names = Some i) g)
            then 1%Z else 0%Z).
Proof.
  intros Hrun.
  destruct (compute_groups_data_cases n names data)
    as [[_ Hfail]|[(_ & _ & Hfail)|(Hknown & _ & M' & HM' & Hshape & Hget)]];
    [congruence..|].
  assert (M' = M) as -> by congruence.
  split; [done|]. split; [done|].
  intros i j gname g Hi Hj. rewrite (Hget i j gname g Hj).
  destruct (decide (i < n)); [|lia]. by rewrite hits_Exists.
Qed.

(** X3. Whenever [compute_groups] returns, the matrix has [num_vars] rows
    and one column per row of the group file, its entries are 0 or 1, entry
    (i, j) is 1 exactly when some member of the j-th group has i as its
    (last) position among the parameter names, and every row beyond the
    parameter names is a row of zeros.  This needs no relation between
    [num_vars] and the number of names. *)
Theorem compute_groups_returns (num_vars : nat) (names : list string)
    (data : list (string * list string)) (M : list (list Z)) :
  compute_groups_data num_vars names data = inr M →
  has_shape M num_vars (length data) ∧
  is_binary M ∧
  (∀ i j gname g, i < num_vars → data !! j = Some (gname, g) →
     (np_get M i j = Some 1%Z ↔ ∃ p, p ∈ g ∧ last_index p names = Some i) ∧
     (np_get M i j = Some 0%Z ↔ ¬ ∃ p, p ∈ g ∧ last_index p names = Some i)) ∧
  (∀ i row, length names ≤ i → M !! i = Some row →
     row = replicate (length data) 0%Z).
Proof.
  intros Hrun.
  destruct (compute_groups_data_success _ _ _ _ Hrun)
    as (Hknown & Hshape & Hget).
  split; [done|]. split; [|split].
  - apply (Groups.entries_binary M num_vars (length data) Hshape).
    intros i j Hi Hj.
    destruct (lookup_lt_is_Some_2 data j) as [[gname g] Hg]; [lia|].
    eexists. by apply (Hget i j gname g).
  - intros i j gname g Hi Hj. rewrite (Hget i j gname g Hi Hj).
    destruct (decide (Exists (λ p, last_index p names = Some i) g)) as [Hex|Hex].
    + rewrite bool_decide_eq_true_2 by done.
      apply Exists_exists in Hex. split; [done|]. split; [done|]. by intros [].
    + rewrite bool_decide_eq_false_2 by done.
      rewrite Exists_exists in Hex. split; [|done]. split; [done|].
      by intros ?.
  - intros i row Hi Hrow.
    assert (i < num_vars) as Hlt.
    { destruct Hshape as [<- _]. by eapply lookup_lt_Some. }
    assert (length row = length data) as Hlen.
    { destruct Hshape as [_ Hcols].
      by eapply (proj1 (Forall_lookup _ _) Hcols). }
    apply list_eq. intros j. destruct (data !! j) as [[gname g]|] eqn:Hj.
    + pose proof (Hget i j gname g Hlt Hj) as Hentry.
      unfold np_get in Hentry. rewrite Hrow in Hentry. simpl in Hentry.
      rewrite Hentry, lookup_replicate_2 by by eapply lookup_lt_Some.
      rewrite bool_decide_eq_false_2; [done|].
      intros (p & _ & Hlast%Groups.last_index_lt)%Exists_exists. lia.
    + apply lookup_ge_None in Hj.
      rewrite (proj2 (lookup_ge_None row j)) by lia.
      symmetry. apply lookup_replicate_None. lia.
Qed.

Lemma compute_groups_returns_witness :
  compute_groups_data 4 ["x1"; "x2"] [("g1", ["x2"]); ("g2", ["x1"; "x2"])]
    = inr [[0; 1]; [1; 1]; [0; 0]; [0; 0]]%Z ∧
  has_shape [[0; 1]; [1; 1]; [0; 0]; [0; 0]]%Z 4 2 ∧
  is_binary [[0; 1]; [1; 1]; [0; 0]; [0; 0]]%Z.
Proof.
  assert (compute_groups_data 4 ["x1"; "x2"]
            [("g1", ["x2"]); ("g2", ["x1"; "x2"])]
          = inr [[0; 1]; [1; 1]; [0; 0]; [0; 0]]%Z) as Hrun
    by (vm_compute; reflexivity).
  split; [exact Hrun|].
  destruct (compute_groups_returns _ _ _ _ Hrun) as (Hshape & Hbinary & _).
  split; [exact Hshape | exact Hbinary].
Defined.

Lemma same_members_lookup (data data' : list (string * list string)) (j : nat)
    (gname : string) (g : list string) :
  same_members data data' → data !! j = Some (gname, g) →
  ∃ gname' g', data' !! j = Some (gname', g') ∧ ∀ x, x ∈ g ↔ x ∈ g'.
Proof.
  intros Hsame Hj.
  destruct (Forall2_lookup_l _ _ _ _ _ Hsame Hj) as ([gname' g'] & Hj' & Hset).
  by exists gname', g'.
Qed.

Lemma same_members_sym (data data' : list (string * list string)) :
  same_members data data' → same_members data' data.
Proof.
  unfold same_members. intros Hsame. apply Forall2_flip.
  eapply Forall2_impl; [done|]. intros g g' Hset x. by rewrite (Hset x).
Qed.

Lemma same_members_referenced (data data' : list (string * list string))
    (p : string) :
  same_members data data' → p ∈ referenced data → p ∈ referenced data'.
Proof.
  intros Hsame (gname & g & (j & Hj)%list_elem_of_lookup_1 & Hp)%referenced_elem_of.
  destruct (same_members_lookup _ _ _ _ _ Hsame Hj)
    as (gname' & g' & Hj' & Hset).
  apply referenced_elem_of. exists gname', g'.
  split; [by eapply list_elem_of_lookup_2 | by apply Hset].
Qed.

Lemma same_members_known (names : list string)
    (data data' : list (string * list string)) :
  same_members data data' → names_known names data → names_known names data'.
Proof.
  intros Hsame Hknown gname' g' x Hg' Hx.
  assert (x ∈ referenced data) as Href.
  { apply (same_members_referenced data' data);
      [by apply same_members_sym|].
    apply referenced_elem_of. eauto. }
  apply referenced_elem_of in Href as (gname & g & Hg & Hin). eauto.
Qed.

Lemma same_members_out_of_range (n : nat) (names : list string)
    (data data' : list (string * list string)) :
  same_members data data' →
  existsb (existsb (out_of_range (dict (enumerate_swapped 0 names)) n))
    (map snd data) = true →
  existsb (existsb (out_of_range (dict (enumerate_swapped 0 names)) n))
    (map snd data') = true.
Proof.
  intros Hsame (p & i & Hp & Hlast & Hge)%out_of_range_referenced.
  apply out_of_range_referenced. exists p, i.
  split; [by apply (same_members_referenced data data') | done].
Qed.

(** X4. The result of [compute_groups] depends on the group file only
    through the number of its rows and the set of members of each row: the
    names of the groups, the order of the members within a row and members
    listed twice make no difference, neither to the matrix nor to the
    exception. *)
Theorem compute_groups_same_members (num_vars : nat) (names : list string)
    (data data' : list (string * list string)) :
  same_members data data' →
  compute_groups_data num_vars names data =
  compute_groups_data num_vars names data'.
Proof.
  intros Hsame. pose proof (same_members_sym _ _ Hsame) as Hsame'.
  destruct (compute_groups_data_cases num_vars names data)
    as [[Hunknown ->]|[(Hknown & Hbad & ->)
                      |(Hknown & Hgood & M & -> & Hshape & Hget)]];
  destruct (compute_groups_data_cases num_vars names data')
    as [[Hunknown' ->]|[(Hknown' & Hbad' & ->)
                       |(Hknown' & Hgood' & M' & -> & Hshape' & Hget')]];
    try done;
    try (destruct Hunknown; by apply (same_members_known names data' data));
    try (destruct Hunknown'; by apply (same_members_known names data data')).
  - pose proof (same_members_out_of_range _ names _ _ Hsame Hbad). congruence.
  - pose proof (same_members_out_of_range _ names _ _ Hsame' Hbad'). congruence.
  - f_equal. pose proof (Forall2_length _ _ _ Hsame) as Hlen.
    rewrite <- Hlen in Hshape'.
    apply (matrix_ext M M' num_vars (length data) Hshape Hshape').
    intros i j Hi Hj.
    destruct (lookup_lt_is_Some_2 data j) as [[gname g] Hg]; [lia|].
    destruct (same_members_lookup _ _ _ _ _ Hsame Hg)
      as (gname' & g' & Hg' & Hset).
    rewrite (Hget i j gname g Hg), (Hget' i j gname' g' Hg').
    destruct (decide (i < num_vars)); [|done].
    rewrite !hits_Exists.
    rewrite (bool_decide_ext (Exists (λ p, last_index p names = Some i) g)
               (Exists (λ p, last_index p names = Some i) g')); [done|].
    rewrite !Exists_exists. split; intros (p & Hp & Hlast); exists p;
      (split; [by apply Hset | done]).
Qed.

Lemma compute_groups_same_members_witness :
  same_members [("g1", ["x1"; "x3"]); ("g2", ["x2"])]
               [("a", ["x3"; "x1"; "x3"]); ("b", ["x2"; "x2"])] ∧
  compute_groups_data 3 ["x1"; "x2"; "x3"]
    [("g1", ["x1"; "x3"]); ("g2", ["x2"])] =
  compute_groups_data 3 ["x1"; "x2"; "x3"]
    [("a", ["x3"; "x1"; "x3"]); ("b", ["x2"; "x2"])].
Proof.
  assert (same_members [("g1", ["x1"; "x3"]); ("g2", ["x2"])]
            [("a", ["x3"; "x1"; "x3"]); ("b", ["x2"; "x2"])]) as Hsame.
  { constructor; [|constructor; [|constructor]];
      intros x; simpl; rewrite !elem_of_cons, !elem_of_nil; tauto. }
  split; [exact Hsame|].
  exact (compute_groups_same_members 3 ["x1"; "x2"; "x3"] _ _ Hsame).
Defined.

Lemma referenced_snoc (data : list (string * list string)) (gname : string)
    (g : list string) :
  referenced (data ++ [(gname, g)]) = referenced data ++ g.
Proof.
  unfold referenced. rewrite map_app, concat_app. simpl. by rewrite app_nil_r.
Qed.

(** X5. Adding a row at the end of the group file adds one column at the
    right of the matrix and leaves the other columns as they are: if
    [compute_groups] returns [M] for a group file and the members of the new
    group are parameter names with a position below [num_vars], it returns
    for the longer file the matrix whose row i is row i of [M] followed by
    the entry of factor i for the new group. *)
Theorem compute_groups_append (num_vars : nat) (names : list string)
    (data : list (string * list string)) (gname : string) (g : list string)
    (M : list (list Z)) :
  compute_groups_data num_vars names data = inr M →
  (∀ p, p ∈ g → ∃ i, last_index p names = Some i ∧ i < num_vars) →
  ∃ M', compute_groups_data num_vars names (data ++ [(gname, g)]) = inr M' ∧
    length M' = length M ∧
    ∀ i row, M !! i = Some row →
      M' !! i =
        Some (row ++ [if bool_decide (Exists (λ p, last_index p names = Some i) g)
                      then 1%Z else 0%Z]).
Proof.
  intros Hrun Hnew.
  destruct (compute_groups_data_success _ _ _ _ Hrun)
    as (Hknown & Hshape & Hget).
  assert (names_known names (data ++ [(gname, g)])) as Hknown'.
  { intros gname' g' x [Hold|Hlast]%elem_of_app Hx; [by eapply Hknown|].
    apply list_elem_of_singleton in Hlast as [= -> ->].
    destruct (Hnew x Hx) as (i & [Hi _]%Groups.last_index_Some & _).
    by eapply list_elem_of_lookup_2. }
  assert (∀ p i, p ∈ referenced data → last_index p names = Some i →
                 i < num_vars) as Hin.
  { intros p i Hp Hlast. destruct (decide (i < num_vars)); [done|].
    destruct (compute_groups_data_cases num_vars names data)
      as [[_ Hfail]|[(_ & _ & Hfail)|(_ & Hgood & _)]]; [congruence..|].
    assert (existsb (existsb (out_of_range (dict (enumerate_swapped 0 names))
              num_vars)) (map snd data) = true) as Habs.
    { apply out_of_range_referenced. exists p, i.
      split; [done|]. split; [done | lia]. }
    congruence. }
  destruct (compute_groups_data_cases num_vars names (data ++ [(gname, g)]))
    as [[Hunknown _]|[(_ & Hbad & _)|(_ & _ & M' & HM' & Hshape' & Hget')]].
  { by destruct Hunknown. }
  { apply out_of_range_referenced in Hbad as (p & i & Hp & Hlast & Hge).
    rewrite referenced_snoc in Hp. apply elem_of_app in Hp as [Hp|Hp].
    - specialize (Hin p i Hp Hlast). lia.
    - destruct (Hnew p Hp) as (i' & Hlast' & Hlt).
      assert (i' = i) as -> by congruence. lia. }
  exists M'. split; [done|].
  destruct Hshape as [Hrows Hcols]. destruct Hshape' as [Hrows' Hcols'].
  split; [lia|]. intros i row Hrow.
  assert (i < num_vars) as Hi by (rewrite <- Hrows; by eapply lookup_lt_Some).
  destruct (lookup_lt_is_Some_2 M' i) as [row' Hrow']; [lia|].
  rewrite Hrow'. f_equal.
  assert (length row = length data) as Hlen
    by by eapply (proj1 (Forall_lookup _ _) Hcols).
  assert (length row' = length data + 1) as Hlen'.
  { rewrite (proj1 (Forall_lookup _ _) Hcols' i row' Hrow').
    rewrite length_app. simpl. lia. }
  assert (∀ j gname0 g0, (data ++ [(gname, g)]) !! j = Some (gname0, g0) →
            row' !! j =
              Some (if bool_decide
                         (Exists (λ p, last_index p names = Some i) g0)
                    then 1%Z else 0%Z)) as Hentry'.
  { intros j gname0 g0 Hj. specialize (Hget' i j gname0 g0 Hj).
    unfold np_get in Hget'. rewrite Hrow' in Hget'. simpl in Hget'.
    destruct (decide (i < num_vars)); [|lia]. by rewrite <- hits_Exists. }
  apply list_eq. intros j.
  destruct (data !! j) as [[gname0 g0]|] eqn:Hj.
  - rewrite (Hentry' j gname0 g0) by by apply lookup_app_l_Some.
    rewrite lookup_app_l by (rewrite Hlen; by eapply lookup_lt_Some).
    specialize (Hget i j gname0 g0 Hi Hj).
    unfold np_get in Hget. by rewrite Hrow in Hget.
  - apply lookup_ge_None in Hj. destruct (decide (j = length data)) as [->|Hne].
    + rewrite (Hentry' (length data) gname g)
        by (rewrite lookup_app_r by lia; by rewrite Nat.sub_diag).
      rewrite lookup_app_r by lia. by rewrite Hlen, Nat.sub_diag.
    + rewrite (proj2 (lookup_ge_None row' j)) by lia.
      symmetry. apply lookup_ge_None. rewrite length_app. simpl. lia.
Qed.

Lemma compute_groups_append_witness :
  compute_groups_data 3 ["x1"; "x2"; "x3"] [("g1", ["x1"; "x3"])]
    = inr [[1]; [0]; [1]]%Z ∧
  ∃ M', compute_groups_data 3 ["x1"; "x2"; "x3"]
          ([("g1", ["x1"; "x3"])] ++ [("g2", ["x2"])]) = inr M' ∧
        M' !! 1 = Some [0; 1]%Z.
Proof.
  assert (compute_groups_data 3 ["x1"; "x2"; "x3"] [("g1", ["x1"; "x3"])]
          = inr [[1]; [0]; [1]]%Z) as Hrun by (vm_compute; reflexivity).
  split; [exact Hrun|].
  destruct (compute_groups_append 3 ["x1"; "x2"; "x3"] _ "g2" ["x2"] _ Hrun)
    as (M' & HM' & _ & Hrows).
  - intros p Hp. apply list_elem_of_singleton in Hp as ->.
    exists 1. split; [reflexivity | lia].
  - exists M'. split; [exact HM'|]. exact (Hrows 1 [0%Z] eq_refl).
Defined.

(** X6. The dictionary of positions that [compute_groups] builds has the
    parameter names as its keys; the value of a name is a position at which
    the name stands, namely the last one; for a name that occurs once it is
    the position of the name. *)
Theorem indices_positions (names : list string) (x : string) :
  (is_Some (dict (enumerate_swapped 0 names) !! x) ↔ x ∈ names) ∧
  (∀ i, dict (enumerate_swapped 0 names) !! x = Some i →
     names !! i = Some x ∧ i < length names ∧
     ∀ k, i < k → names !! k ≠ Some x) ∧
  (∀ i k, names !! i = Some x →
     dict (enumerate_swapped 0 names) !! x = Some k → i ≤ k) ∧
  (NoDup names → ∀ i, names !! i = Some x →
     dict (enumerate_swapped 0 names) !! x = Some i).
Proof.
  rewrite Groups.indices_lookup. split_and!.
  - destruct (last_index x names) as [i|] eqn:Hlast.
    + split; [|done]. intros _.
      apply Groups.last_index_Some in Hlast as [Hi _].
      by eapply list_elem_of_lookup_2.
    + apply Groups.last_index_None in Hlast. split; [by intros [? ?] | done].
  - intros i Hlast. pose proof (Groups.last_index_lt _ _ _ Hlast).
    apply Groups.last_index_Some in Hlast as [Hi Hafter]. done.
  - intros i k Hi [_ Hafter]%Groups.last_index_Some.
    destruct (decide (i ≤ k)); [done|]. destruct (Hafter i); [lia | done].
  - intros Hnodup i Hi. by apply Groups.last_index_NoDup.
Qed.

End GroupsMore.

(** ** The constructor *)

Module InitMore.

Section WithImports.

Context {imports : Imports}.

(** *** The store only grows *)

Lemma keeps_arrays_refl (w : world) : keeps_arrays w w.
Proof. by intros k b. Qed.

Lemma keeps_arrays_trans (w1 w2 w3 : world) :
  keeps_arrays w1 w2 → keeps_arrays w2 w3 → keeps_arrays w1 w3.
Proof. intros H12 H23 k b Hk. by apply H23, H12. Qed.

Lemma lookup_fresh (h : gmap nat ndarray) : h !! fresh (dom h) = None.
Proof. apply not_elem_of_dom, is_fresh. Qed.

(** What a sampler does when it returns: one call recorded, one new array. *)
Lemma morris_oat_sample_run (N : Z) (param_file : string)
    (num_levels grid_jump : Z) (w : world) :
  let r := morris_oat_sample N param_file num_levels grid_jump w in
  keeps_arrays w r.2 ∧
  calls r.2 = calls w ++ [CallMorrisOatSample N param_file num_levels grid_jump] ∧
  ∀ l, r.1 = inr l → heap w !! l = None ∧ is_Some (heap r.2 !! l).
Proof.
  unfold morris_oat_sample, mbind, M_bind, bind, enter, draw, raise.
  destruct (grid_ok num_levels grid_jump); simpl.
  - destruct (draw_oat _ _ _ _ _) as [a g]. simpl.
    split; [|split; [done|]].
    + intros k b Hk. cbn. rewrite lookup_insert_ne; [done|].
      intros <-. by rewrite lookup_fresh in Hk.
    + intros l [= <-]. split; [apply lookup_fresh|].
      rewrite lookup_insert_eq. by eexists.
  - split; [by intros k b|]. by split.
Qed.

Lemma morris_groups_sample_run (N : Z) (G : list (list Z))
    (num_levels grid_jump : Z) (w : world) :
  let r := morris_groups_sample N G num_levels grid_jump w in
  keeps_arrays w r.2 ∧
  calls r.2 = calls w ++ [CallMorrisGroupsSample N G num_levels grid_jump] ∧
  ∀ l, r.1 = inr l → heap w !! l = None ∧ is_Some (heap r.2 !! l).
Proof.
  unfold morris_groups_sample, mbind, M_bind, bind, enter, draw, raise.
  destruct (grid_ok num_levels grid_jump); simpl.
  - destruct (draw_groups _ _ _ _ _) as [a g]. simpl.
    split; [|split; [done|]].
    + intros k b Hk. cbn. rewrite lookup_insert_ne; [done|].
      intros <-. by rewrite lookup_fresh in Hk.
    + intros l [= <-]. split; [apply lookup_fresh|].
      rewrite lookup_insert_eq. by eexists.
  - split; [by intros k b|]. by split.
Qed.

Lemma find_optimum_trajectories_run (sample : nat) (N : Z) (n : nat) (k : Z)
    (w : world) :
  let r := find_optimum_trajectories sample N n k w in
  keeps_arrays w r.2 ∧
  calls r.2 = calls w ++ [CallFindOptimumTrajectories sample N n k] ∧
  ∀ l, r.1 = inr l → heap w !! l = None ∧ is_Some (heap r.2 !! l).
Proof.
  unfold find_optimum_trajectories, mbind, M_bind, bind, enter, deref, lift,
    alloc.
  simpl. destruct (heap w !! sample) as [a|] eqn:Ha; simpl;
    [|split; [by intros j c | by split]].
  destruct (find_optimum a N n k) as [e|b]; simpl;
    [split; [by intros j c | by split]|].
  split; [|split; [done|]].
  - intros j c Hj. cbn. rewrite lookup_insert_ne; [done|].
    intros <-. by rewrite lookup_fresh in Hj.
  - intros l [= <-]. split; [apply lookup_fresh|].
    rewrite lookup_insert_eq. by eexists.
Qed.

(** The sampling step, whichever sampler it uses: the calls it records,
    the arrays it keeps, the instance it returns. *)
Lemma sampling_step_run (self : Morris) (w : world) :
  let r := sampling_step self w in
  keeps_arrays w r.2 ∧
  (∃ t, calls r.2 = calls w ++ sampler_call self :: t ∧
     match optimal_trajectories self with
     | None => t = []
     | Some k =>
         t = [] ∧ (∃ e, r.1 = inl e) ∨
         ∃ l, t = [CallFindOptimumTrajectories l (samples self) (num_vars self) k]
     end) ∧
  ∀ self', r.1 = inr self' →
    (∃ l, self' = set_output_sample self l ∧
          heap w !! l = None ∧ is_Some (heap r.2 !! l)).
Proof.
  unfold sampling_step, sampler_call.
  destruct (groups self) as [G|] eqn:HG.
  - unfold create_sample_with_groups. rewrite HG.
    unfold mbind, M_bind, bind.
    pose proof (morris_groups_sample_run (samples self) G (num_levels self)
                  (grid_jump self) w) as (Hkeep & Hcalls & Hloc).
    destruct (morris_groups_sample _ _ _ _ w) as [[e|l] w1]; simpl in *.
    { split; [done|]. split; [|done]. exists []. split; [done|].
      destruct (optimal_trajectories self); [|done]. left. eauto. }
    destruct (Hloc l eq_refl) as [Hfresh Halloc].
    destruct (optimal_trajectories self) as [k|] eqn:Hk; simpl.
    + pose proof (find_optimum_trajectories_run l (samples self)
                    (num_vars self) k w1) as (Hkeep2 & Hcalls2 & Hloc2).
      destruct (find_optimum_trajectories _ _ _ _ w1) as [[e|l2] w2];
        simpl in *.
      * split; [by eapply keeps_arrays_trans|]. split; [|done].
        eexists. split; [by rewrite Hcalls2, Hcalls, <- app_assoc|].
        right. by eexists.
      * split; [by eapply keeps_arrays_trans|]. split.
        { eexists. split; [by rewrite Hcalls2, Hcalls, <- app_assoc|].
          right. by eexists. }
        intros self' [= <-]. exists l2. split; [done|].
        destruct (Hloc2 l2 eq_refl) as [Hfresh2 Halloc2]. split; [|done].
        destruct (heap w !! l2) as [b|] eqn:Hb; [|done].
        apply Hkeep in Hb. congruence.
    + unfold ret. simpl. split; [done|]. split; [by exists []|].
      intros self' [= <-]. by exists l.
  - unfold create_sample.
    pose proof (morris_oat_sample_run (samples self) (parameter_file self)
                  (num_levels self) (grid_jump self) w)
      as (Hkeep & Hcalls & Hloc).
    destruct (optimal_trajectories self) as [k|] eqn:Hk;
      unfold mbind, M_bind, bind;
      destruct (morris_oat_sample _ _ _ _ w) as [[e|l] w1]; simpl in *.
    + split; [done|]. split; [|done]. exists []. split; [done|]. left. eauto.
    + destruct (Hloc l eq_refl) as [Hfresh Halloc].
      pose proof (find_optimum_trajectories_run l (samples self)
                    (num_vars self) k w1) as (Hkeep2 & Hcalls2 & Hloc2).
      destruct (find_optimum_trajectories _ _ _ _ w1) as [[e|l2] w2];
        simpl in *.
      * split; [by eapply keeps_arrays_trans|]. split; [|done].
        eexists. split; [by rewrite Hcalls2, Hcalls, <- app_assoc|].
        right. by eexists.
      * split; [by eapply keeps_arrays_trans|]. split.
        { eexists. split; [by rewrite Hcalls2, Hcalls, <- app_assoc|].
          right. by eexists. }
        intros self' [= <-]. exists l2. split; [done|].
        destruct (Hloc2 l2 eq_refl) as [Hfresh2 Halloc2]. split; [|done].
        destruct (heap w !! l2) as [b|] eqn:Hb; [|done].
        apply Hkeep in Hb. congruence.
    + split; [done|]. split; [by exists []|done].
    + unfold ret. simpl. split; [done|]. split; [by exists []|].
      intros self' [= <-]. exists l. by destruct (Hloc l eq_refl).
Qed.

Lemma check_optimal_trajectories_accepts (k samples : Z) :
  check_optimal_trajectories (Some k) samples = inr tt →
  (1 < k < samples ∧ k <= 10)%Z.
Proof.
  unfold check_optimal_trajectories.
  destruct (k >=? samples)%Z eqn:E1; [done|].
  destruct (k >? 10)%Z eqn:E2; [done|].
  destruct (k <=? 1)%Z eqn:E3; [done|]. lia.
Qed.

(** X7. The group file is dealt with first.  When a group file is given (a
    non-empty name) and mentions a name that is no parameter name, the
    constructor raises the error of [compute_groups], whatever the other
    arguments are (also when [optimal_trajectories] violates its guards or
    the grid is unusable), and nothing has been sampled: the world is as
    before. *)
Theorem group_file_checked_first (parameter_file group_file : string)
    (samples num_levels grid_jump : Z) (optimal_trajectories : option Z)
    (w : world) :
  group_file ≠ EmptyString →
  ¬ names_known (pf_names (read_param_file parameter_file))
      (read_group_file group_file) →
  Morris_init parameter_file samples num_levels grid_jump (Some group_file)
    optimal_trajectories w = (inl (ValueError msg_group_names), w).
Proof.
  intros Hname Hunknown. rewrite Init.Morris_init_unfold.
  unfold init_groups, truthy, compute_groups.
  destruct group_file as [|c rest]; [done|].
  destruct (GroupsMore.compute_groups_data_cases
              (pf_num_vars (read_param_file parameter_file))
              (pf_names (read_param_file parameter_file))
              (read_group_file (String c rest)))
    as [[_ ->]|[(Hknown & _)|(Hknown & _)]]; done.
Qed.


(** X9. An instance that the constructor returns carries the arguments of
    the constructor and the contents of the parameter file; its groups are
    what [compute_groups] returned, and there are none exactly when no group
    file or an empty name was given; if optimal trajectories were asked for,
    their number is between 2 and 10 and below the number of samples; and it
    has a sample. *)
Theorem constructed_instance (param_file : string)
    (N levels jump : Z) (group_file : option string)
    (k_optimal : option Z) (w w' : world) (self : Morris) :
  Morris_init param_file N levels jump group_file
    k_optimal w = (inr self, w') →
  parameter_file self = param_file ∧
  samples self = N ∧
  num_levels self = levels ∧
  grid_jump self = jump ∧
  num_vars self = pf_num_vars (read_param_file param_file) ∧
  bounds self = pf_bounds (read_param_file param_file) ∧
  parameter_names self = pf_names (read_param_file param_file) ∧
  optimal_trajectories self = k_optimal ∧
  init_groups (read_param_file param_file) group_file
    = inr (groups self) ∧
  (groups self = None ↔ group_file = None ∨ group_file = Some EmptyString) ∧
  (∀ k, k_optimal = Some k → (1 < k < N ∧ k <= 10)%Z) ∧
  is_Some (output_sample self).
Proof.
  rewrite Init.Morris_init_unfold.
  destruct (init_groups _ _) as [e|groups] eqn:Hgroups; [done|].
  destruct (check_optimal_trajectories _ _) as [e|[]] eqn:Hcheck; [done|].
  intros Hrun.
  destruct (sampling_step_run
              (self_before_sampling param_file N levels
                 jump groups k_optimal) w) as (_ & _ & Hself).
  rewrite Hrun in Hself. destruct (Hself self eq_refl) as (l & -> & _).
  simpl. split_and!; try done.
  - unfold init_groups, truthy in Hgroups.
    destruct group_file as [[|c rest]|]; simplify_eq;
      try (split; [auto | done]).
    destruct (compute_groups _ _ _); simplify_eq.
    split; [done | by intros [?|?]].
  - intros k ->. by apply check_optimal_trajectories_accepts.
Qed.

End WithImports.

Lemma group_file_checked_first_witness :
  "groups.txt" ≠ EmptyString ∧
  ¬ names_known (pf_names (@read_param_file demo_imports "duplicate.txt"))
      (@read_group_file demo_imports "groups.txt") ∧
  @Morris_init demo_imports "duplicate.txt" 5 3 7 (Some "groups.txt")
    (Some 40%Z) demo_world = (inl (ValueError msg_group_names), demo_world).
Proof.
  assert (¬ names_known (pf_names (@read_param_file demo_imports "duplicate.txt"))
            (@read_group_file demo_imports "groups.txt")) as Hunknown.
  { apply GroupsMore.names_known_dec. vm_compute. reflexivity. }
  split; [discriminate|]. split; [exact Hunknown|].
  apply (@group_file_checked_first demo_imports); [discriminate | exact Hunknown].
Defined.

Lemma constructed_instance_witness :
  @Morris_init demo_imports "params.txt" 5 4 2 None None demo_world
    = (inr demo_self, demo_built_world) ∧
  samples demo_self = 5%Z ∧ groups demo_self = None ∧
  is_Some (output_sample demo_self).
Proof.
  assert (@Morris_init demo_imports "params.txt" 5 4 2 None None demo_world
          = (inr demo_self, demo_built_world)) as Hrun
    by (vm_compute; reflexivity).
  split; [exact Hrun|].
  destruct (@constructed_instance demo_imports _ _ _ _ _ _ _ _ _ Hrun)
    as (_ & Hsamples & _ & _ & _ & _ & _ & _ & _ & Hgroups & _ & Hsample).
  split; [exact Hsamples|]. split; [|exact Hsample].
  apply Hgroups. by left.
Defined.

End InitMore.

(** ** The methods of [Sample] *)

Module SampleMore.

Section WithImports.

Context {imports : Imports}.

(** The methods read the attributes of the base class only: on a [Morris]
    instance they are the methods modelled for [Morris]. *)
Lemma inherited_methods (self : Morris) (w : world) :
  get_input_sample_scaled self w
    = Sample_get_input_sample_scaled (as_Sample self) w ∧
  get_input_sample_unscaled self w
    = Sample_get_input_sample_unscaled (as_Sample self) w.
Proof. done. Qed.

Lemma Sample_get_input_sample_scaled_run (self : Sample) (w : world) (l : nat)
    (a : ndarray) :
  sample_output_sample self = Some l → heap w !! l = Some a →
  Sample_get_input_sample_scaled self w =
    (match (scale_samples a (sample_bounds self)).2 with
     | inl e => inl e
     | inr _ => inr (fresh (dom (heap w)))
     end,
     MkWorld
       (<[fresh (dom (heap w)) := (scale_samples a (sample_bounds self)).1]>
          (heap w))
       (calls w) (gen w)).
Proof.
  intros Hl Ha.
  unfold Sample_get_input_sample_scaled, mbind, M_bind, bind, deref, alloc,
    update, ret.
  rewrite Hl, Ha. simpl. rewrite lookup_insert_eq. simpl.
  rewrite insert_insert_eq. by destruct (scale_samples a (sample_bounds self)).2.
Qed.

(** X10. An instance of the base class has no sample after [__init__]: it
    carries the contents of the parameter file and the number of samples,
    [get_input_sample_unscaled] returns [None], and
    [get_input_sample_scaled] and [save_data] raise [AttributeError];
    none of this changes the store. *)
Theorem sample_without_output (param_file output : string) (N : Z)
    (delimiter : option string) (precision : option Z) (w : world) :
  ∃ self,
    Sample_init param_file N w = (inr self, w) ∧
    sample_parameter_file self = param_file ∧
    sample_num_vars self = pf_num_vars (read_param_file param_file) ∧
    sample_bounds self = pf_bounds (read_param_file param_file) ∧
    sample_parameter_names self = pf_names (read_param_file param_file) ∧
    sample_samples self = N ∧
    Sample_get_input_sample_unscaled self w = (inr None, w) ∧
    Sample_get_input_sample_scaled self w = (inl AttributeError, w) ∧
    save_data self output delimiter precision w = (inl AttributeError, w).
Proof. eexists. by split_and!. Qed.

(** X11. [save_data] hands [np.savetxt] the contents of the scaled copy,
    the file name it was given, the delimiter (a space if left out) and the
    format [%.<precision>e] (precision 8 if left out).  The stored sample and
    every other array are as before, no sampler or optimiser is called and no
    random number is drawn.  If the scaling raises, so does [save_data], and
    nothing is handed to [np.savetxt]. *)
Theorem save_data_writes_scaled_copy (self : Sample) (output : string)
    (delimiter : option string) (precision : option Z) (w : world) (l : nat)
    (a : ndarray) :
  sample_output_sample self = Some l → heap w !! l = Some a →
  heap (save_data self output delimiter precision w).2 !! l = Some a ∧
  keeps_arrays w (save_data self output delimiter precision w).2 ∧
  calls (save_data self output delimiter precision w).2 = calls w ∧
  gen (save_data self output delimiter precision w).2 = gen w ∧
  ((scale_samples a (sample_bounds self)).2 = inr tt →
   (save_data self output delimiter precision w).1 =
     inr (MkSavetxt output (scale_samples a (sample_bounds self)).1
            (default " " delimiter)
            ("%." +:+ pretty (default 8%Z precision) +:+ "e"))) ∧
  (∀ e, (scale_samples a (sample_bounds self)).2 = inl e →
     (save_data self output delimiter precision w).1 = inl e) ∧
  (precision = None →
   ∀ r, (save_data self output delimiter precision w).1 = inr r →
     savetxt_fmt r = "%.8e").
Proof.
  intros Hl Ha.
  assert (∀ k b, heap w !! k = Some b → k ≠ fresh (dom (heap w))) as Hfresh.
  { intros k b Hk ->. by rewrite InitMore.lookup_fresh in Hk. }
  unfold save_data, mbind, M_bind, bind.
  rewrite (Sample_get_input_sample_scaled_run self w l a Hl Ha).
  destruct (scale_samples a (sample_bounds self)) as [scaled [e|[]]]; simpl.
  - split; [rewrite lookup_insert_ne; [done|]; intros Heq;
            by apply (Hfresh l a)|].
    split.
    { intros k b Hk. cbn. rewrite lookup_insert_ne; [done|].
      intros Heq. by apply (Hfresh k b). }
    split_and!; try done. by intros e' [= ->].
  - unfold deref, ret. simpl. rewrite lookup_insert_eq. simpl.
    split; [rewrite lookup_insert_ne; [done|]; intros Heq;
            by apply (Hfresh l a)|].
    split.
    { intros k b Hk. cbn. rewrite lookup_insert_ne; [done|].
      intros Heq. by apply (Hfresh k b). }
    split_and!; try done.
    intros -> r [= <-]. done.
Qed.

(** X12. Scaling does not compound.  Two calls of
    [get_input_sample_scaled] in a row return two different new arrays with
    the same contents, the scaled contents of the stored sample, and the
    stored sample is still what it was. *)
Theorem scaling_twice (self : Morris) (w : world) (l : nat) (a : ndarray) :
  output_sample self = Some l → heap w !! l = Some a →
  (scale_samples a (bounds self)).2 = inr tt →
  ∃ l1 w1 l2 w2,
    get_input_sample_scaled self w = (inr l1, w1) ∧
    get_input_sample_scaled self w1 = (inr l2, w2) ∧
    l1 ≠ l ∧ l2 ≠ l ∧ l1 ≠ l2 ∧
    heap w2 !! l1 = Some (scale_samples a (bounds self)).1 ∧
    heap w2 !! l2 = Some (scale_samples a (bounds self)).1 ∧
    heap w2 !! l = Some a.
Proof.
  intros Hl Ha Hreturns.
  pose proof (Sample.get_input_sample_scaled_run self w l a Hl Ha) as Hrun1.
  rewrite Hreturns in Hrun1.
  set (l1 := fresh (dom (heap w))) in *.
  set (w1 := MkWorld (<[l1 := (scale_samples a (bounds self)).1]> (heap w))
               (calls w) (gen w)) in *.
  assert (l1 ≠ l) as Hne1.
  { intros Heq. subst l1. rewrite <- Heq in Ha.
    by rewrite InitMore.lookup_fresh in Ha. }
  assert (heap w1 !! l = Some a) as Ha1
    by (subst w1; cbn; by rewrite lookup_insert_ne).
  pose proof (Sample.get_input_sample_scaled_run self w1 l a Hl Ha1) as Hrun2.
  rewrite Hreturns in Hrun2.
  set (l2 := fresh (dom (heap w1))) in *.
  assert (heap w1 !! l2 = None) as Hfree2 by apply InitMore.lookup_fresh.
  assert (l2 ≠ l) as Hne2 by (intros Heq; congruence).
  assert (l1 ≠ l2) as Hne12.
  { intros Heq. rewrite <- Heq in Hfree2. subst w1. cbn in Hfree2.
    by rewrite lookup_insert_eq in Hfree2. }
  eexists l1, w1, l2, _. split; [exact Hrun1|]. split; [exact Hrun2|].
  split; [done|]. split; [done|]. split; [done|]. cbn.
  split; [by rewrite lookup_insert_ne, lookup_insert_eq by done|].
  split; [by rewrite lookup_insert_eq|].
  by rewrite !lookup_insert_ne by done.
Qed.

End WithImports.

Lemma save_data_writes_scaled_copy_witness :
  sample_output_sample (as_Sample demo_self) = Some 0 ∧
  heap demo_built_world !! 0 = Some [5; 3; 4; 2; 0]%Z ∧
  (save_data (as_Sample demo_self) "out.txt" None None demo_built_world).1 =
    inr (@MkSavetxt demo_imports "out.txt" [10; 6; 8; 4; 0]%Z " " "%.8e") ∧
  heap (save_data (as_Sample demo_self) "out.txt" None None
          demo_built_world).2 !! 0 = Some [5; 3; 4; 2; 0]%Z.
Proof.
  assert (heap demo_built_world !! 0 = Some [5; 3; 4; 2; 0]%Z) as Hheap
    by (vm_compute; reflexivity).
  split; [reflexivity|]. split; [exact Hheap|].
  destruct (@save_data_writes_scaled_copy demo_imports (as_Sample demo_self)
              "out.txt" None None demo_built_world 0 [5; 3; 4; 2; 0]%Z
              eq_refl Hheap) as (Hkept & _ & _ & _ & Hwritten & _).
  split; [exact (Hwritten eq_refl) | exact Hkept].
Defined.

Lemma scaling_twice_witness :
  output_sample demo_self = Some 0 ∧
  heap demo_built_world !! 0 = Some [5; 3; 4; 2; 0]%Z ∧
  ∃ l1 w1 l2 w2,
    get_input_sample_scaled demo_self demo_built_world = (inr l1, w1) ∧
    get_input_sample_scaled demo_self w1 = (inr l2, w2) ∧
    l1 ≠ l2 ∧
    heap w2 !! l1 = Some [10; 6; 8; 4; 0]%Z ∧
    heap w2 !! l2 = Some [10; 6; 8; 4; 0]%Z ∧
    heap w2 !! 0 = Some [5; 3; 4; 2; 0]%Z.
Proof.
  assert (heap demo_built_world !! 0 = Some [5; 3; 4; 2; 0]%Z) as Hheap
    by (vm_compute; reflexivity).
  split; [reflexivity|]. split; [exact Hheap|].
  destruct (@scaling_twice demo_imports demo_self demo_built_world 0
              [5; 3; 4; 2; 0]%Z eq_refl Hheap eq_refl)
    as (l1 & w1 & l2 & w2 & H1 & H2 & _ & _ & Hne & Hl1 & Hl2 & Hl).
  exists l1, w1, l2, w2. split; [exact H1|]. split; [exact H2|].
  split; [exact Hne|]. split; [exact Hl1|]. split; [exact Hl2 | exact Hl].
Defined.

End SampleMore.
